(** * hirax-layoutdb: property types, properties and the local subgraph

    A shallow embedding of [padloper/_property_nodes.py] and
    [python-interface/local_graph.py], and the properties of the
    specification proved (or refuted) on it.

    Python values are modelled by the data the code manipulates: [str] as
    [string], [int] as [Z], [dict] as [gmap], lists as [list].  Exceptions
    are values of [exn]; a method is a state transformer that returns either
    an exception or a result, and the state it leaves behind is kept in both
    cases, as mutations made before a [raise] stay visible in Python. *)

From Stdlib Require Import Ascii.
From stdpp Require Import base option list functions gmap strings pretty.

Set Warnings "-register-all".

Local Open Scope string_scope.

(** ** Exceptions and the method monad *)

(** The exceptions the two source files can raise.  [TypeError],
    [ValueError], [KeyError], [IndexError] and [AssertionError] are the
    Python builtins, [re_error] is [re.error].  [MissingArgument] and
    [SchemaError] are the names the specification gives to what the generic
    initialiser of [_base.Vertex] signals; that initialiser is not part of
    the two files. *)
Inductive exn : Type :=
  | TypeError (msg : string)
  | ValueError (msg : string)
  | KeyError (key : string)
  | IndexError
  | AssertionError
  | re_error
  | MissingArgument (attr : string)
  | SchemaError (attr : string).

Definition M (St A : Type) : Type := St → St * (exn + A).

#[global] Instance M_ret {St} : MRet (M St) := λ A x s, (s, inr x).
#[global] Instance M_bind {St} : MBind (M St) := λ A B f m s,
  match m s with
  | (s', inl e) => (s', inl e)
  | (s', inr x) => f x s'
  end.

Definition raise {St A} (e : exn) : M St A := λ s, (s, inl e).
Definition get_state {St} : M St St := λ s, (s, inr s).
Definition modify_state {St} (f : St → St) : M St unit := λ s, (f s, inr tt).

(** [for x in l: body x] with an accumulator threaded through the body. *)
Fixpoint for_each {St A B} (l : list A) (body : A → B → M St B) (acc : B)
    : M St B :=
  match l with
  | [] => mret acc
  | x :: l' => acc' ← body x acc; for_each l' body acc'
  end.

(** ** Strings *)

(** The double quote character, for the messages that quote a keyword. *)
Definition dquote : string := String "034"%char EmptyString.

(** [sub in s] on Python strings, which is also the test of Gremlin's
    [TextP.containing]: the empty string is contained in every string. *)
Fixpoint contains (s sub : string) : bool :=
  String.prefix sub s ||
  match s with
  | EmptyString => false
  | String _ s' => contains s' sub
  end.

(** A message names a number when its decimal rendering occurs in it. *)
Definition names_count (msg : string) (n : Z) : bool := contains msg (pretty n).

(** The characters [repr] treats specially. *)
Definition squote_char : ascii := "'"%char.
Definition dquote_char : ascii := "034"%char.
Definition backslash_char : ascii := "092"%char.

(** A hexadecimal digit, in lower case. *)
Definition hex_digit (n : N) : ascii :=
  default "0"%char (String.list_ascii_of_string "0123456789abcdef" !! N.to_nat n).

(** One character as [repr] writes it between the quotes [quote]. *)
Definition py_repr_char (quote c : ascii) : string :=
  let n := N_of_ascii c in
  if bool_decide (c = quote ∨ c = backslash_char) then
    String backslash_char (String c EmptyString)
  else if bool_decide (n = 9%N) then String backslash_char "t"
  else if bool_decide (n = 10%N) then String backslash_char "n"
  else if bool_decide (n = 13%N) then String backslash_char "r"
  else if bool_decide (n < 32 ∨ n = 127 ∨ 128 ≤ n ≤ 160 ∨ n = 173)%N then
    String backslash_char
      (String "x"%char
         (String (hex_digit (n / 16))
            (String (hex_digit (n mod 16)) EmptyString)))
  else String c EmptyString.

(** [repr(s)] of a [str], a character of a model string being a code point
    below 256.  The quotes are single ones unless the string has a single
    quote and no double one; the quote in use and the backslash are escaped
    with a backslash; tab, newline and carriage return are written [\t],
    [\n], [\r]; the other characters that are not printable (below 32, 127,
    128 to 160 and 173) are written [\xhh] with two lower-case hexadecimal
    digits; every other character stands for itself. *)
Definition py_repr (s : string) : string :=
  let chars := String.list_ascii_of_string s in
  let quote :=
    if bool_decide (squote_char ∈ chars ∧ dquote_char ∉ chars)
    then dquote_char else squote_char in
  String quote
    (foldr (λ c acc, py_repr_char quote c ++ acc)
       (String quote EmptyString) chars).

(** ** Regular expressions

    [re.fullmatch(pattern, string)] compiles the pattern, which raises
    [re.error] when the pattern is malformed, and then matches the whole
    string.  The engine is Python's; the development is parametric in it. *)
Class RegexEngine : Type := {
  re_pattern : Type;
  re_compile : string → option re_pattern;
  pattern_fullmatch : re_pattern → string → bool
}.

(** ** Values passed for [values]

    [Property(values=...)] accepts any Python object; [isinstance(_, list)]
    tells a list from everything else.  A string is the only value
    [re.fullmatch] accepts as its subject. *)
Inductive pyval : Type :=
  | PyNone
  | PyInt (z : Z)
  | PyStr (s : string)
  | PyList (l : list pyval).

Definition isinstance_list (v : pyval) : bool :=
  match v with PyList _ => true | _ => false end.

(** ** The attribute descriptors of [_base] *)

Inductive attr_type : Type :=
  | ty_str | ty_int | ty_ComponentType | ty_PropertyType.

(** [VertexAttr(name, type, edge_class=None, optional=False, default=None,
    is_list=False, list_len=None)], as the two classes call it. *)
Record VertexAttr : Type := {
  va_name : string;
  va_type : attr_type;
  va_edge_class : option string;
  va_optional : bool;
  va_default : option string;
  va_is_list : bool;
  va_list_len : option (Z * Z)
}.

(** What a keyword argument looks like to the generic initialiser: a
    single value, or a list of some length. *)
Inductive arg_shape : Type :=
  | Scalar
  | Sequence (len : nat).

(** Modelled from the spec: the check the generic initialiser of
    [_base.Vertex] (absent) makes for one descriptor.  Section 9 has the
    descriptors (name, semantic type, optional/default, cardinality) consumed
    uniformly by the validation logic: a required attribute must be supplied
    ([MissingArgument], naming the field), and a list attribute with a
    declared [list_len] must have a length within it ([SchemaError]). *)
Definition check_attr (a : VertexAttr) (supplied : option arg_shape)
    : exn + unit :=
  match supplied with
  | None =>
      if va_optional a then inr tt else inl (MissingArgument (va_name a))
  | Some Scalar => inr tt
  | Some (Sequence n) =>
      match va_list_len a with
      | Some (lo, hi) =>
          if bool_decide (lo ≤ Z.of_nat n ∧ Z.of_nat n ≤ hi)%Z then inr tt
          else inl (SchemaError (va_name a))
      | None => inr tt
      end
  end.

(** Modelled from the spec: the descriptors are checked in the order the
    class lists them, and the first failure is the one signalled. *)
Fixpoint check_attrs (attrs : list VertexAttr)
    (supplied : string → option arg_shape) : exn + unit :=
  match attrs with
  | [] => inr tt
  | a :: attrs' =>
      match check_attr a (supplied (va_name a)) with
      | inl e => inl e
      | inr _ => check_attrs attrs' supplied
      end
  end.

(** ** Component types *)
Module ComponentType.

(** Modelled from the spec: [ComponentType] lives in [_component_nodes]
    (absent); a property type only refers to it as an owner type with a
    name. *)
Record t : Type := { name : string }.

End ComponentType.

(** ** The graph database behind [g.t]

    The fragment of Gremlin that [get_count] uses: a traversal is a list of
    steps, built client side and evaluated by the server when [next()] is
    called.  A step maps one traverser (a vertex here) to the traversers it
    emits; [and_] and [or_] are filters that keep a traverser when every
    (some) child traversal emits at least one result from it. *)
Module Gremlin.

Inductive value : Type :=
  | VBool (b : bool)
  | VInt (z : Z)
  | VStr (s : string).

#[global] Instance value_eq_dec : EqDecision value.
Proof. solve_decision. Defined.

Record vertex : Type := { vid : nat; vprops : gmap string value }.
Record edge : Type := { elabel : string; eout : nat; ein : nat }.
Record graph : Type := { vertices : list vertex; edges : list edge }.

(** The predicates [P.eq] (what [has(key, value)] means) and
    [TextP.containing]. *)
Inductive P : Type :=
  | eq (v : value)
  | containing (sub : string).

Definition test (p : P) (x : value) : bool :=
  match p with
  | eq v => bool_decide (x = v)
  | containing sub =>
      match x with VStr s => contains s sub | _ => false end
  end.

Inductive step : Type :=
  | has (key : string) (p : P)
  | both (label : string)
  | and_ (ts : list (list step))
  | or_ (ts : list (list step)).

Definition traversal : Type := list step.

Definition with_id (G : graph) (i : nat) : list vertex :=
  List.filter (λ w, bool_decide (vid w = i)) (vertices G).

(** [both(label)]: the vertices at the other end of the edges with that
    label, whichever way the edge points. *)
Definition neighbours (G : graph) (label : string) (v : vertex) : list vertex :=
  flat_map (λ e,
    if bool_decide (elabel e = label) then
      ((if bool_decide (eout e = vid v) then with_id G (ein e) else []) ++
       (if bool_decide (ein e = vid v) then with_id G (eout e) else []))%list
    else []) (edges G).

Definition emits {A} (l : list A) : bool :=
  match l with [] => false | _ :: _ => true end.

Fixpoint step_apply (G : graph) (s : step) (v : vertex) {struct s}
    : list vertex :=
  let run := λ (t : list step),
    foldl (λ vs s', flat_map (step_apply G s') vs) [v] t in
  match s with
  | has key p =>
      match vprops v !! key with
      | Some x => if test p x then [v] else []
      | None => []
      end
  | both label => neighbours G label v
  | and_ ts => if forallb (λ t, emits (run t)) ts then [v] else []
  | or_ ts => if existsb (λ t, emits (run t)) ts then [v] else []
  end.

Definition run (G : graph) (t : traversal) (vs : list vertex) : list vertex :=
  foldl (λ vs s, flat_map (step_apply G s) vs) vs t.

(** [g.t.V() ... .count().next()] *)
Definition V_count (G : graph) (t : traversal) : Z :=
  Z.of_nat (length (run G t (vertices G))).

End Gremlin.

(** The state of module [_global]: the database reached through [g.t], and
    the traversals that were sent to it. *)
Record g_state : Type := {
  db : Gremlin.graph;
  submitted : list Gremlin.traversal
}.

(** [traversal.count().next()]: one round trip. *)
Definition count_next (t : Gremlin.traversal) : M g_state Z := λ s,
  ({| db := db s; submitted := (submitted s ++ [t])%list |},
   inr (Gremlin.V_count (db s) t)).

(** ** [class PropertyType(Vertex)] *)
Module PropertyType.

Record t : Type := {
  name : string;
  units : string;
  allowed_regex : string;
  n_values : Z;
  allowed_types : list ComponentType.t;
  comments : string
}.

Definition category : string := "property_type".

Definition _vertex_attrs : list VertexAttr := [
  {| va_name := "name"; va_type := ty_str; va_edge_class := None;
     va_optional := false; va_default := None;
     va_is_list := false; va_list_len := None |};
  {| va_name := "units"; va_type := ty_str; va_edge_class := None;
     va_optional := true; va_default := Some "";
     va_is_list := false; va_list_len := None |};
  {| va_name := "allowed_regex"; va_type := ty_str; va_edge_class := None;
     va_optional := true; va_default := Some ".*";
     va_is_list := false; va_list_len := None |};
  {| va_name := "n_values"; va_type := ty_int; va_edge_class := None;
     va_optional := false; va_default := None;
     va_is_list := false; va_list_len := None |};
  {| va_name := "allowed_types"; va_type := ty_ComponentType;
     va_edge_class := Some "RelationPropertyAllowedType";
     va_optional := false; va_default := None;
     va_is_list := true; va_list_len := Some (1, 10000000000)%Z |};
  {| va_name := "comments"; va_type := ty_str; va_edge_class := None;
     va_optional := true; va_default := Some "";
     va_is_list := false; va_list_len := None |}
].

Definition primary_attr : string := "name".

(** The keyword arguments of [PropertyType(...)], typed as the descriptors
    declare them. *)
Record kwargs : Type := {
  kw_name : option string;
  kw_units : option string;
  kw_allowed_regex : option string;
  kw_n_values : option Z;
  kw_allowed_types : option (list ComponentType.t);
  kw_comments : option string
}.

Definition supplied (kw : kwargs) (attr : string) : option arg_shape :=
  if bool_decide (attr = "name") then (λ _, Scalar) <$> kw_name kw
  else if bool_decide (attr = "units") then (λ _, Scalar) <$> kw_units kw
  else if bool_decide (attr = "allowed_regex") then
    (λ _, Scalar) <$> kw_allowed_regex kw
  else if bool_decide (attr = "n_values") then
    (λ _, Scalar) <$> kw_n_values kw
  else if bool_decide (attr = "allowed_types") then
    (λ l, Sequence (length l)) <$> kw_allowed_types kw
  else if bool_decide (attr = "comments") then
    (λ _, Scalar) <$> kw_comments kw
  else None.

Section construction.
Context `{RegexEngine}.

(** Modelled from the spec: the invariants of section 3 ([n_values >= 1],
    [allowed_types] non-empty, [allowed_regex] compiles) on the arguments as
    they are given, an omitted [allowed_regex] taking its default; the
    result is the attribute of the first invariant that is violated. *)
Definition violated_invariant (kw : kwargs) : option string :=
  if from_option (λ nv, bool_decide (nv < 1)%Z) false (kw_n_values kw) then
    Some "n_values"
  else if from_option (λ tys, bool_decide (length tys = 0)) false
            (kw_allowed_types kw) then
    Some "allowed_types"
  else
    match re_compile (default ".*" (kw_allowed_regex kw)) with
    | None => Some "allowed_regex"
    | Some _ => None
    end.

(** Modelled from the spec: the initialiser [PropertyType] inherits from
    [_base.Vertex] (absent).  Section 4.1 has construction validate the
    invariants of section 3 and signal [SchemaError] when one is violated;
    section 9 has it consume the descriptors of [_vertex_attrs] (a required
    attribute must be supplied, a declared [list_len] must be kept).  The
    arguments are then stored, an omitted optional one taking its
    default. *)
Definition __init__ {St} (kw : kwargs) : M St t :=
  match violated_invariant kw with
  | Some attr => raise (SchemaError attr)
  | None =>
      match check_attrs _vertex_attrs (supplied kw) with
      | inl e => raise e
      | inr _ =>
          match kw_name kw, kw_n_values kw, kw_allowed_types kw with
          | Some n, Some nv, Some tys =>
              mret {| name := n;
                      units := default "" (kw_units kw);
                      allowed_regex := default ".*" (kw_allowed_regex kw);
                      n_values := nv;
                      allowed_types := tys;
                      comments := default "" (kw_comments kw) |}
          | None, _, _ => raise (MissingArgument "name")
          | _, None, _ => raise (MissingArgument "n_values")
          | _, _, None => raise (MissingArgument "allowed_types")
          end
      end
  end.

End construction.

(** The dictionary [as_dict] returns, as a record of its keys. *)
Record repr : Type := {
  repr_name : string;
  repr_units : string;
  repr_allowed_regex : string;
  repr_n_values : Z;
  repr_comments : string
}.

(** Modelled from the spec: [as_dict] is inherited from [_base.Vertex]
    (absent); section 4.2 has it return the type's structural snapshot
    (name, units, regex, n_values, comments). *)
Definition as_dict (self : t) : repr :=
  {| repr_name := name self;
     repr_units := units self;
     repr_allowed_regex := allowed_regex self;
     repr_n_values := n_values self;
     repr_comments := comments self |}.

Section get_count.

(** [RelationPropertyAllowedType.category], a constant of [_edges]. *)
Variable RelationPropertyAllowedType_category : string.

(** The body of [for f in filters], on the list [ands]. *)
Definition filter_body {St} (f : list string) (ands : list Gremlin.traversal)
    : M St (list Gremlin.traversal) :=
  match f with
  | [f0; f1] =>
      let contents : list Gremlin.traversal := [] in
      let contents :=
        if bool_decide (f0 ≠ "") then
          (contents ++
            [[Gremlin.has "name" (Gremlin.containing f0)]])%list
        else contents in
      let contents :=
        if bool_decide (f1 ≠ "") then
          (contents ++
            [[Gremlin.both RelationPropertyAllowedType_category;
              Gremlin.has "name" (Gremlin.eq (Gremlin.VStr f1))]])%list
        else contents in
      if bool_decide (0 < length contents) then
        mret (ands ++ [[Gremlin.and_ contents]])%list
      else mret ands
  | _ => raise AssertionError
  end.

(** [PropertyType.get_count(filters)]; [None] is Python's [None]. *)
Definition get_count (filters : option (list (list string)))
    : M g_state Z :=
  let traversal : Gremlin.traversal :=
    [Gremlin.has "active" (Gremlin.eq (Gremlin.VBool true));
     Gremlin.has "category" (Gremlin.eq (Gremlin.VStr category))] in
  traversal ←
    match filters with
    | Some filters =>
        ands ← for_each filters filter_body [];
        if bool_decide (0 < length ands) then
          mret (traversal ++ [Gremlin.or_ ands])%list
        else mret traversal
    | None => mret traversal
    end;
  count_next traversal.

End get_count.

End PropertyType.

(** ** [class Property(Vertex)] *)
Module Property.

Record t : Type := {
  type : PropertyType.t;
  values : list string
}.

Definition category : string := "property".

Definition _vertex_attrs : list VertexAttr := [
  {| va_name := "type"; va_type := ty_PropertyType;
     va_edge_class := Some "RelationPropertyType";
     va_optional := false; va_default := None;
     va_is_list := false; va_list_len := None |};
  {| va_name := "values"; va_type := ty_str; va_edge_class := None;
     va_optional := false; va_default := None;
     va_is_list := true; va_list_len := None |}
].

(** [**kwargs] of the initialiser: each keyword is there or not. *)
Record kwargs : Type := {
  kw_type : option PropertyType.t;
  kw_values : option pyval
}.

Definition class_name : string := "Property".

Definition missing_keyword (kw : string) : string :=
  class_name ++ "() missing required keyword " ++ dquote ++ kw ++ dquote ++ ".".

(** ["%d value%s %s required." % (nn, "" if nn == 1 else "s",
    "is" if nn == 1 else "are")] *)
Definition arity_msg (nn : Z) : string :=
  pretty nn ++ " value" ++ (if bool_decide (nn = 1%Z) then "" else "s") ++
  " " ++ (if bool_decide (nn = 1%Z) then "is" else "are") ++ " required.".

Definition regex_msg (val : string) (T : PropertyType.t) : string :=
  "Property with value " ++ val ++ " of type " ++ PropertyType.name T ++
  " does not match regex " ++ PropertyType.allowed_regex T ++ ".".

(** [[kwargs["values"]]] unless it is a list already. *)
Definition as_list (v : pyval) : list pyval :=
  match v with PyList l => l | _ => [v] end.

Section with_engine.
Context `{RegexEngine}.

(** The body of [for val in kwargs["values"]]. *)
Definition check_value {St} (T : PropertyType.t) (val : pyval) : M St unit :=
  match re_compile (PropertyType.allowed_regex T) with
  | None => raise re_error
  | Some p =>
      match val with
      | PyStr s =>
          if pattern_fullmatch p s then mret tt
          else raise (ValueError (regex_msg s T))
      | _ => raise (TypeError "expected string or bytes-like object")
      end
  end.

Definition _validate {St} (kw : kwargs) : M St unit :=
  values ←
    match kw_values kw with
    | Some v => mret (if isinstance_list v then v else PyList [v])
    | None => raise (TypeError (missing_keyword "values"))
    end;
  match kw_type kw with
  | None => raise (TypeError (missing_keyword "type"))
  | Some T =>
      let nn := PropertyType.n_values T in
      if bool_decide (Z.of_nat (length (as_list values)) ≠ nn) then
        raise (TypeError (arity_msg nn))
      else
        for_each (as_list values) (λ val _, check_value T val) tt
  end.

(** The strings of a list of values, when they all are strings. *)
Definition as_strings (l : list pyval) : option (list string) :=
  mapM (λ v, match v with PyStr s => Some s | _ => None end) l.

Definition supplied (kw : kwargs) (attr : string) : option arg_shape :=
  if bool_decide (attr = "type") then (λ _, Scalar) <$> kw_type kw
  else if bool_decide (attr = "values") then
    (λ v, match v with
          | PyList l => Sequence (length l)
          | _ => Scalar
          end) <$> kw_values kw
  else None.

(** Modelled from the spec: the initialiser [Property] inherits from
    [_base.Vertex] (absent).  It calls [_validate] (its docstring: called by
    the initialiser), checks the descriptors, and stores [type] and [values],
    a single scalar being coerced into a one-element sequence (section
    4.2). *)
Definition __init__ {St} (kw : kwargs) : M St t :=
  _validate kw;;
  match check_attrs _vertex_attrs (supplied kw) with
  | inl e => raise e
  | inr _ =>
      match kw_type kw, kw_values kw with
      | Some T, Some v =>
          match as_strings (as_list v) with
          | Some l => mret {| type := T; values := l |}
          | None => raise (TypeError "values must be strings")
          end
      | None, _ => raise (MissingArgument "type")
      | _, None => raise (MissingArgument "values")
      end
  end.

End with_engine.

(** The dictionary [as_dict] returns, as a record of its keys. *)
Record repr : Type := {
  repr_values : list string;
  repr_type : PropertyType.repr
}.

Definition as_dict (self : t) : repr :=
  {| repr_values := values self;
     repr_type := PropertyType.as_dict (type self) |}.

End Property.

(** ** A reference regular-expression engine

    An executable instance of [RegexEngine] for a fragment of Python's
    pattern syntax: literals, [.], escapes, character classes with ranges
    and negation, grouping, alternation and the quantifiers [*], [+] and
    [?].  A pattern is compiled to a syntax tree and matched with
    derivatives.  Anchors and counted repetition are outside the fragment
    and are rejected.  The theorems below hold for every engine; this one
    runs them on concrete patterns. *)
Module re.

Inductive regex : Type :=
  | Empty
  | Eps
  | Chr (c : ascii)
  | Any
  | Class (negated : bool) (ranges : list (ascii * ascii))
  | Cat (r1 r2 : regex)
  | Alt (r1 r2 : regex)
  | Star (r : regex).

Definition in_range (c : ascii) (rg : ascii * ascii) : bool :=
  (nat_of_ascii (fst rg) <=? nat_of_ascii c)%nat &&
  (nat_of_ascii c <=? nat_of_ascii (snd rg))%nat.

Fixpoint nullable (r : regex) : bool :=
  match r with
  | Empty | Chr _ | Any | Class _ _ => false
  | Eps | Star _ => true
  | Cat r1 r2 => nullable r1 && nullable r2
  | Alt r1 r2 => nullable r1 || nullable r2
  end.

Fixpoint deriv (c : ascii) (r : regex) : regex :=
  match r with
  | Empty | Eps => Empty
  | Chr d => if bool_decide (c = d) then Eps else Empty
  | Any => if bool_decide (c = "010"%char) then Empty else Eps
  | Class negated ranges =>
      if xorb negated (existsb (in_range c) ranges) then Eps else Empty
  | Cat r1 r2 =>
      if nullable r1 then Alt (Cat (deriv c r1) r2) (deriv c r2)
      else Cat (deriv c r1) r2
  | Alt r1 r2 => Alt (deriv c r1) (deriv c r2)
  | Star r1 => Cat (deriv c r1) (Star r1)
  end.

Definition fullmatch (r : regex) (s : string) : bool :=
  nullable (fold_left (λ r c, deriv c r) (String.list_ascii_of_string s) r).

(** [\d], [\w] and [\s]; any other escaped character stands for itself. *)
Definition escape (c : ascii) : regex :=
  if bool_decide (c = "d"%char) then Class false [("0", "9")]%char
  else if bool_decide (c = "w"%char) then
    Class false [("a", "z"); ("A", "Z"); ("0", "9"); ("_", "_")]%char
  else if bool_decide (c = "s"%char) then
    Class false [(" ", " "); ("009", "013")]%char
  else Chr c.

(** The items of a character class, up to the closing bracket. *)
Fixpoint parse_class (s : list ascii) (acc : list (ascii * ascii))
    : option (list (ascii * ascii) * list ascii) :=
  match s with
  | [] => None
  | "]"%char :: rest => Some (acc, rest)
  | c :: rest =>
      match rest with
      | "-"%char :: d :: rest' =>
          if bool_decide (d = "]"%char) then
            parse_class rest (acc ++ [(c, c)])%list
          else parse_class rest' (acc ++ [(c, d)])%list
      | _ => parse_class rest (acc ++ [(c, c)])%list
      end
  end.

Definition is_quantifier (c : ascii) : bool :=
  bool_decide (c = "*"%char) || bool_decide (c = "+"%char) ||
  bool_decide (c = "?"%char).

Definition quantify (q : ascii) (r : regex) : regex :=
  if bool_decide (q = "*"%char) then Star r
  else if bool_decide (q = "+"%char) then Cat r (Star r)
  else Alt Eps r.

(** One quantifier at most, which a [?] may follow (the lazy form, that
    matches the same strings); a second [*] or [+] is a multiple repeat. *)
Definition parse_quantifier (r : regex) (s : list ascii)
    : option (regex * list ascii) :=
  match s with
  | q :: rest =>
      if is_quantifier q then
        match rest with
        | q' :: rest' =>
            if bool_decide (q' = "?"%char) then Some (quantify q r, rest')
            else if is_quantifier q' then None
            else Some (quantify q r, rest)
        | [] => Some (quantify q r, rest)
        end
      else Some (r, s)
  | [] => Some (r, s)
  end.

Fixpoint parse_alt (fuel : nat) (s : list ascii)
    : option (regex * list ascii) :=
  match fuel with
  | O => None
  | S fuel' =>
      '(r, rest) ← parse_cat fuel' s;
      match rest with
      | "|"%char :: rest' =>
          '(r2, rest2) ← parse_alt fuel' rest';
          Some (Alt r r2, rest2)
      | _ => Some (r, rest)
      end
  end
with parse_cat (fuel : nat) (s : list ascii)
    : option (regex * list ascii) :=
  match fuel with
  | O => None
  | S fuel' =>
      match s with
      | [] => Some (Eps, s)
      | c :: _ =>
          if bool_decide (c = ")"%char) || bool_decide (c = "|"%char) then
            Some (Eps, s)
          else
            '(a, rest) ← parse_atom fuel' s;
            '(r, rest1) ← parse_quantifier a rest;
            '(r2, rest2) ← parse_cat fuel' rest1;
            Some (Cat r r2, rest2)
      end
  end
with parse_atom (fuel : nat) (s : list ascii)
    : option (regex * list ascii) :=
  match fuel with
  | O => None
  | S fuel' =>
      match s with
      | [] => None
      | c :: rest =>
          if bool_decide (c = "("%char) then
            '(r, rest1) ← parse_alt fuel' rest;
            match rest1 with
            | ")"%char :: rest2 => Some (r, rest2)
            | _ => None
            end
          else if bool_decide (c = "["%char) then
            match rest with
            | "^"%char :: rest1 =>
                '(rs, rest2) ← parse_class rest1 [];
                Some (Class true rs, rest2)
            | _ =>
                '(rs, rest2) ← parse_class rest [];
                Some (Class false rs, rest2)
            end
          else if bool_decide (c = "."%char) then Some (Any, rest)
          else if bool_decide (c = "\"%char) then
            match rest with
            | e :: rest1 => Some (escape e, rest1)
            | [] => None
            end
          else if is_quantifier c || bool_decide (c = ")"%char) ||
                  bool_decide (c = "^"%char) || bool_decide (c = "$"%char) ||
                  bool_decide (c = "{"%char) || bool_decide (c = "}"%char)
          then None
          else Some (Chr c, rest)
      end
  end.

Definition compile (pattern : string) : option regex :=
  let s := String.list_ascii_of_string pattern in
  match parse_alt (3 * length s + 3) s with
  | Some (r, []) => Some r
  | _ => None
  end.

End re.

#[global] Instance reference_engine : RegexEngine := {
  re_pattern := re.regex;
  re_compile := re.compile;
  pattern_fullmatch := re.fullmatch
}.

(** ** The graph engine

    What [local_graph.py] uses of the [igraph] library, as the library
    documents it: a graph built from an edge list has as many vertices as
    its largest index requires; assigning a list to a vertex attribute
    reuses the list cyclically over the vertices; an edge of an undirected
    graph is reported with its smaller endpoint first; a vertex given by a
    string is looked up in the [name] attribute, and the lookup raises
    [ValueError] when no vertex has that name. *)
Module igraph.

Record Graph : Type := {
  vcount : nat;
  es : list (nat * nat);
  vs : gmap string (list string)
}.

(** [igraph.Graph()] *)
Definition Graph_empty : Graph := {| vcount := 0; es := []; vs := ∅ |}.

(** An edge of an undirected graph is reported with its smaller endpoint
    first, whichever way round it was given. *)
Definition undirected (e : nat * nat) : nat * nat :=
  (fst e `min` snd e, fst e `max` snd e).

(** [igraph.Graph(edges)] *)
Definition Graph_of_edges (edges : list (nat * nat)) : Graph :=
  {| vcount := foldr (λ e n, (S (fst e) `max` S (snd e)) `max` n) 0 edges;
     es := undirected <$> edges;
     vs := ∅ |}.

Definition recycle (n : nat) (values : list string) : list string :=
  take n (mjoin (replicate n values)).

(** [g.vs[key] = values] *)
Definition vs_set (key : string) (values : list string) (g : Graph)
    : exn + Graph :=
  if bool_decide (values = [] ∧ 0 < vcount g) then
    inl (ValueError "sequence must not be empty")
  else
    inr {| vcount := vcount g;
           es := es g;
           vs := <[key := recycle (vcount g) values]> (vs g) |}.

(** [g.vs[key]] *)
Definition vs_get (key : string) (g : Graph) : exn + list string :=
  match vs g !! key with
  | Some col => inr col
  | None => inl (KeyError "Attribute does not exist")
  end.

(** The index of the vertex a name stands for; the error gives the name
    as [repr] writes it. *)
Definition vertex_id (g : Graph) (name : string) : exn + nat :=
  match list_find (λ n, n = name) (default [] (vs g !! "name")) with
  | Some (i, _) => inr i
  | None => inl (ValueError ("no such vertex: " ++ py_repr name))
  end.

(** The neighbours of a vertex, edges being followed both ways
    ([mode='all']). *)
Definition adjacent (g : Graph) (v : nat) : list nat :=
  flat_map (λ e,
    ((if bool_decide (fst e = v) then [snd e] else []) ++
     (if bool_decide (snd e = v) then [fst e] else []))%list) (es g).

(** Breadth-first search by levels; a path is kept with its last vertex
    first.  The paths of the first level that reaches the target are all the
    shortest ones. *)
Fixpoint search (g : Graph) (fuel : nat) (seen : list nat)
    (frontier : list (list nat)) (target : nat) : list (list nat) :=
  match List.filter (λ p, bool_decide (head p = Some target)) frontier with
  | [] =>
      match fuel with
      | O => []
      | S fuel' =>
          let next :=
            flat_map (λ p,
              match p with
              | [] => []
              | v :: _ =>
                  (λ w, w :: p) <$>
                    List.filter (λ w, bool_decide (w ∉ seen)) (adjacent g v)
              end) frontier in
          match next with
          | [] => []
          | _ :: _ =>
              search g fuel' (seen ++ omap head next)%list next target
          end
      end
  | found => reverse <$> found
  end.

(** [g.get_all_shortest_paths(v, to=to, weights=None, mode='all')] with
    both vertices given by name: the source is resolved before the
    target. *)
Definition get_all_shortest_paths (g : Graph) (v to : string)
    : exn + list (list nat) :=
  match vertex_id g v with
  | inl e => inl e
  | inr src =>
      match vertex_id g to with
      | inl e => inl e
      | inr dst => inr (search g (vcount g) [src] [[src]] dst)
      end
  end.

End igraph.

(** ** [class LocalGraph] *)
Module LocalGraph.

(** An endpoint descriptor [pair[i]]: its ['properties'] entry is a
    reference to a dictionary object of the caller, its ['type'] entry a
    string. *)
Record endpoint : Type := {
  properties : nat;
  type : string
}.

(** What a call can see and change: the caller's dictionary objects, by
    reference, and [self.graph]. *)
Record world : Type := {
  heap : nat → gmap string (list string);
  graph : igraph.Graph
}.

Definition set_graph (g : igraph.Graph) (w : world) : world :=
  {| heap := heap w; graph := g |}.

(** [properties['type'] = [type]] on the object [properties] refers to. *)
Definition set_type (ep : endpoint) (w : world) : world :=
  {| heap := <[properties ep :=
                <["type" := [type ep]]> (heap w (properties ep))]> (heap w);
     graph := graph w |}.

(** [LocalGraph()] *)
Definition __init__ : M world unit :=
  modify_state (set_graph igraph.Graph_empty).

(** The local variables of [create_from_connections_undirected]. *)
Record locals : Type := {
  vertex_properties : gmap string (list string);
  vertex_name_to_ind : gmap string nat;
  vertex_index_connections : list (nat * nat);
  vertices_so_far : nat
}.

(** [for key in properties: ...]: the first value of every attribute is
    appended to the attribute's column. *)
Definition copy_first_values (properties : gmap string (list string))
    (vertex_properties : gmap string (list string))
    : exn + gmap string (list string) :=
  map_fold (λ key vals acc,
    match acc with
    | inl e => inl e
    | inr vp =>
        match vals with
        | [] => inl IndexError
        | v :: _ => inr (<[key := (default [] (vp !! key) ++ [v])%list]> vp)
        end
    end) (inr vertex_properties) properties.

(** The body of [for i in range(len(pair))], on the locals and on the
    list [indices]. *)
Definition endpoint_body (ep : endpoint) (acc : locals * list nat)
    : M world (locals * list nat) :=
  let '(L, indices) := acc in
  modify_state (set_type ep);;
  w ← get_state;
  let props := heap w (properties ep) in
  match props !! "name" with
  | None => raise (KeyError "name")
  | Some [] => raise IndexError
  | Some (name :: _) =>
      L ←
        match vertex_name_to_ind L !! name with
        | Some _ => mret L
        | None =>
            match copy_first_values props (vertex_properties L) with
            | inl e => raise e
            | inr vp =>
                mret {| vertex_properties := vp;
                        vertex_name_to_ind :=
                          <[name := vertices_so_far L]> (vertex_name_to_ind L);
                        vertex_index_connections := vertex_index_connections L;
                        vertices_so_far := S (vertices_so_far L) |}
            end
        end;
      match vertex_name_to_ind L !! name with
      | Some i => mret (L, (indices ++ [i])%list)
      | None => raise (KeyError name)
      end
  end.

(** The body of [for pair in vertex_connections]. *)
Definition pair_body (pair : endpoint * endpoint) (L : locals)
    : M world locals :=
  '(L, indices) ← for_each [fst pair; snd pair] endpoint_body (L, []);
  match indices with
  | [i; j] =>
      mret {| vertex_properties := vertex_properties L;
              vertex_name_to_ind := vertex_name_to_ind L;
              vertex_index_connections :=
                (vertex_index_connections L ++ [(i, j)])%list;
              vertices_so_far := vertices_so_far L |}
  | _ => raise (TypeError "an edge is a pair of vertex indices")
  end.

(** [for key in vertex_properties: self.graph.vs[key] = ...], in place:
    the attributes set before an error stay set. *)
Definition set_attributes (vertex_properties : gmap string (list string))
    : M world unit := λ w,
  let '(g, err) :=
    map_fold (λ key col (acc : igraph.Graph * option exn),
      match acc with
      | (g, Some e) => (g, Some e)
      | (g, None) =>
          match igraph.vs_set key col g with
          | inl e => (g, Some e)
          | inr g' => (g', None)
          end
      end) (graph w, None) vertex_properties in
  (set_graph g w, match err with Some e => inl e | None => inr tt end).

Definition create_from_connections_undirected
    (vertex_connections : list (endpoint * endpoint)) : M world unit :=
  L ← for_each vertex_connections pair_body
        {| vertex_properties := ∅;
           vertex_name_to_ind := ∅;
           vertex_index_connections := [];
           vertices_so_far := 0 |};
  modify_state (set_graph (igraph.Graph_of_edges (vertex_index_connections L)));;
  set_attributes (vertex_properties L);;
  w ← get_state;
  match igraph.vs_get "name" (graph w) with
  | inl e => raise e
  | inr names =>
      match igraph.vs_set "label" names (graph w) with
      | inl e => raise e
      | inr g => modify_state (set_graph g)
      end
  end.

Definition find_shortest_paths (name1 name2 : string)
    : M world (list (list nat)) := λ w,
  (w, igraph.get_all_shortest_paths (graph w) name1 name2).

End LocalGraph.

(** ** Specification-level definitions

    The notions the statements below are written with.  They follow the
    words of the specification and are related to the code by the
    theorems. *)

(** A value fully matches the type's pattern; a pattern that does not
    compile matches nothing. *)
Definition fully_matches `{RegexEngine} (T : PropertyType.t) (x : string)
    : bool :=
  match re_compile (PropertyType.allowed_regex T) with
  | Some p => pattern_fullmatch p x
  | None => false
  end.

(** The pattern of the type is one the engine can compile. *)
Definition regex_compiles `{RegexEngine} (pattern : string) : bool :=
  match re_compile pattern with Some _ => true | None => false end.

(** An active entity of category [property_type]. *)
Definition active_property_type (v : Gremlin.vertex) : bool :=
  bool_decide (Gremlin.vprops v !! "active"
               = Some (Gremlin.VBool true)) &&
  bool_decide (Gremlin.vprops v !! "category"
               = Some (Gremlin.VStr PropertyType.category)).

(** The entity's name contains the substring. *)
Definition name_contains (v : Gremlin.vertex) (sub : string) : bool :=
  match Gremlin.vprops v !! "name" with
  | Some (Gremlin.VStr s) => contains s sub
  | _ => false
  end.

Definition named (G : Gremlin.graph) (i : nat) (owner : string) : bool :=
  existsb (λ w,
    bool_decide (Gremlin.vid w = i) &&
    bool_decide (Gremlin.vprops w !! "name" = Some (Gremlin.VStr owner)))
    (Gremlin.vertices G).

(** The type is permitted on an owner type of that name: an allowed-type
    relation links it to a vertex so named. *)
Definition permitted_on (G : Gremlin.graph) (rel : string)
    (v : Gremlin.vertex) (owner : string) : bool :=
  existsb (λ e,
    bool_decide (Gremlin.elabel e = rel) &&
    ((bool_decide (Gremlin.eout e = Gremlin.vid v) &&
      named G (Gremlin.ein e) owner) ||
     (bool_decide (Gremlin.ein e = Gremlin.vid v) &&
      named G (Gremlin.eout e) owner)))
    (Gremlin.edges G).

(** One filter: the conjunction of its two clauses, an empty string
    leaving its clause out. *)
Definition filter_matches (G : Gremlin.graph) (rel : string)
    (v : Gremlin.vertex) (f : string * string) : bool :=
  (bool_decide (f.1 = "") || name_contains v f.1) &&
  (bool_decide (f.2 = "") || permitted_on G rel v f.2).

(** The count section 4.1 describes: the active property types that match
    the disjunction of the filters, all of them when there is no filter. *)
Definition count_disjunction (G : Gremlin.graph) (rel : string)
    (fs : list (string * string)) : Z :=
  Z.of_nat (length (List.filter (λ v,
    active_property_type v &&
    (bool_decide (fs = []) || existsb (filter_matches G rel v) fs))
    (Gremlin.vertices G))).

(** A filter constrains something when one of its elements is not empty. *)
Definition constrains (f : string * string) : bool :=
  bool_decide (f.1 ≠ "") || bool_decide (f.2 ≠ "").

(** A 2-tuple of strings, as [get_count] receives it. *)
Definition tuple2 (f : string * string) : list string := [f.1; f.2].

(** The bag [create_from_connections_undirected] reads for an endpoint:
    the caller's properties with the type label merged in. *)
Definition bag (h : nat → gmap string (list string))
    (ep : LocalGraph.endpoint) : gmap string (list string) :=
  <["type" := [LocalGraph.type ep]]> (h (LocalGraph.properties ep)).

Definition first_value (b : gmap string (list string)) (key : string)
    : option string :=
  b !! key ≫= head.

Definition name_of (h : nat → gmap string (list string))
    (ep : LocalGraph.endpoint) : option string :=
  first_value (bag h ep) "name".

(** The endpoints of a connection list, in the order they are visited. *)
Definition endpoints (conns : list (LocalGraph.endpoint * LocalGraph.endpoint))
    : list LocalGraph.endpoint :=
  flat_map (λ pair, [pair.1; pair.2]) conns.

(** The input format of section 6: every endpoint has a name, and every
    attribute holds a sequence with a first element. *)
Definition well_formed (h : nat → gmap string (list string))
    (conns : list (LocalGraph.endpoint * LocalGraph.endpoint)) : Prop :=
  Forall (λ ep,
    is_Some (name_of h ep) ∧ map_Forall (λ _ col, col ≠ []) (bag h ep))
    (endpoints conns).

(** The named bags seen so far, one per name, each the bag of the first
    endpoint that carried the name. *)
Definition see (h : nat → gmap string (list string))
    (firsts : list (string * gmap string (list string)))
    (ep : LocalGraph.endpoint) : list (string * gmap string (list string)) :=
  match name_of h ep with
  | Some n =>
      if bool_decide (n ∈ firsts.*1) then firsts
      else (firsts ++ [(n, bag h ep)])%list
  | None => firsts
  end.

Definition first_occurrences (h : nat → gmap string (list string))
    (eps : list LocalGraph.endpoint)
    : list (string * gmap string (list string)) :=
  foldl (see h) [] eps.

(** The column of an attribute: its first value in every first occurrence
    that has the attribute, in order. *)
Definition column (key : string)
    (firsts : list (string * gmap string (list string))) : list string :=
  omap (λ nb, first_value nb.2 key) firsts.

(** The names of the vertices of a graph, by index. *)
Definition vertex_names (g : igraph.Graph) : list string :=
  default [] (igraph.vs g !! "name").

Local Open Scope list_scope.

(** ** Definitions for the proofs and the concrete runs *)

(** A property type that takes two values, for the concrete runs. *)
Definition serial_number : PropertyType.t :=
  {| PropertyType.name := "serial";
     PropertyType.units := "";
     PropertyType.allowed_regex := "[0-9]+";
     PropertyType.n_values := 2;
     PropertyType.allowed_types := [{| ComponentType.name := "antenna" |}];
     PropertyType.comments := "two numbers" |}.

(** A property type that takes one value. *)
Definition site_label : PropertyType.t :=
  {| PropertyType.name := "site";
     PropertyType.units := "";
     PropertyType.allowed_regex := "[a-z]+";
     PropertyType.n_values := 1;
     PropertyType.allowed_types := [{| ComponentType.name := "antenna" |}];
     PropertyType.comments := "" |}.

(** Keyword arguments that break two invariants of section 3: [n_values]
    is 0 and the pattern does not compile. *)
Definition malformed_kwargs : PropertyType.kwargs :=
  {| PropertyType.kw_name := Some "broken";
     PropertyType.kw_units := None;
     PropertyType.kw_allowed_regex := Some "(";
     PropertyType.kw_n_values := Some 0%Z;
     PropertyType.kw_allowed_types := Some [{| ComponentType.name := "antenna" |}];
     PropertyType.kw_comments := None |}.

(** The test of [has(key, p)] on a vertex. *)
Definition has_test (key : string) (p : Gremlin.P) (v : Gremlin.vertex)
    : bool :=
  match Gremlin.vprops v !! key with
  | Some x => Gremlin.test p x
  | None => false
  end.

(** The traversal [get_count] builds for one constraining filter. *)
Definition and_of (rel : string) (f : string * string) : Gremlin.traversal :=
  [Gremlin.and_
     ((if bool_decide (f.1 ≠ "") then
         [[Gremlin.has "name" (Gremlin.containing f.1)]] else []) ++
      (if bool_decide (f.2 ≠ "") then
         [[Gremlin.both rel;
           Gremlin.has "name" (Gremlin.eq (Gremlin.VStr f.2))]] else []))].

(** A store with two property types, both allowed on one component type. *)
Definition example_vertex (i : nat) (cat name : string) : Gremlin.vertex :=
  {| Gremlin.vid := i;
     Gremlin.vprops :=
       {[ "active" := Gremlin.VBool true;
          "category" := Gremlin.VStr cat;
          "name" := Gremlin.VStr name ]} |}.

Definition example_store : g_state :=
  {| db :=
       {| Gremlin.vertices :=
            [example_vertex 0 "property_type" "Voltage";
             example_vertex 1 "property_type" "Current";
             example_vertex 2 "component_type" "antenna"];
          Gremlin.edges :=
            [{| Gremlin.elabel := "rel_property_allowed_type";
                Gremlin.eout := 0; Gremlin.ein := 2 |};
             {| Gremlin.elabel := "rel_property_allowed_type";
                Gremlin.eout := 1; Gremlin.ein := 2 |}] |};
     submitted := [] |}.

(** [properties['type'] = [type]] on every endpoint, in order. *)
Definition mark_types (eps : list LocalGraph.endpoint)
    (w : LocalGraph.world) : LocalGraph.world :=
  foldl (λ w ep, LocalGraph.set_type ep w) w eps.

(** A column is in the table once it holds a value. *)
Definition some_if_emits {A} (l : list A) : option (list A) :=
  match l with [] => None | _ :: _ => Some l end.

(** The locals hold the first occurrences seen so far: their number, the
    index of every name, and the columns of their attributes. *)
Definition represents (firsts : list (string * gmap string (list string)))
    (L : LocalGraph.locals) : Prop :=
  LocalGraph.vertices_so_far L = length firsts ∧
  (∀ n i, LocalGraph.vertex_name_to_ind L !! n = Some i ↔
          (firsts.*1) !! i = Some n) ∧
  (∀ key, LocalGraph.vertex_properties L !! key
          = some_if_emits (column key firsts)).

(** What holds of the locals after the pairs [pre]. *)
Definition loop_inv (h : nat → gmap string (list string))
    (pre : list (LocalGraph.endpoint * LocalGraph.endpoint))
    (L : LocalGraph.locals) : Prop :=
  represents (first_occurrences h (endpoints pre)) L ∧
  igraph.vcount
    (igraph.Graph_of_edges (LocalGraph.vertex_index_connections L))
  = length (first_occurrences h (endpoints pre)) ∧
  length (LocalGraph.vertex_index_connections L) = length pre ∧
  ∀ k pair, pre !! k = Some pair →
    ∃ i j na nb,
      LocalGraph.vertex_index_connections L !! k = Some (i, j) ∧
      name_of h pair.1 = Some na ∧ name_of h pair.2 = Some nb ∧
      ((first_occurrences h (endpoints pre)).*1) !! i = Some na ∧
      ((first_occurrences h (endpoints pre)).*1) !! j = Some nb.

(** The locals before the loop. *)
Definition locals_init : LocalGraph.locals :=
  {| LocalGraph.vertex_properties := ∅;
     LocalGraph.vertex_name_to_ind := ∅;
     LocalGraph.vertex_index_connections := [];
     LocalGraph.vertices_so_far := 0 |}.

(** Two connections over three dictionaries of the caller: the second
    connection names "B" and "A" again, "A" through another dictionary
    that has one more attribute. *)
Definition example_heap : nat → gmap string (list string) := λ l,
  if bool_decide (l = 0) then {[ "name" := ["A"] ]}
  else if bool_decide (l = 1) then {[ "name" := ["B"] ]}
  else if bool_decide (l = 2) then
    {[ "name" := ["A"]; "colour" := ["blue"] ]}
  else ∅.

Definition example_world : LocalGraph.world :=
  {| LocalGraph.heap := example_heap; LocalGraph.graph := igraph.Graph_empty |}.

Definition example_connections
    : list (LocalGraph.endpoint * LocalGraph.endpoint) :=
  [({| LocalGraph.properties := 0; LocalGraph.type := "X" |},
    {| LocalGraph.properties := 1; LocalGraph.type := "Y" |});
   ({| LocalGraph.properties := 1; LocalGraph.type := "Y" |},
    {| LocalGraph.properties := 2; LocalGraph.type := "X" |})].

(** The locals at the end of the loop of
    [create_from_connections_undirected]. *)
Definition loop_locals
    (conns : list (LocalGraph.endpoint * LocalGraph.endpoint))
    (w : LocalGraph.world) : exn + LocalGraph.locals :=
  (for_each conns LocalGraph.pair_body locals_init w).2.

(** One connection between "A", which has a name only, and "B", which has
    a colour too. *)
Definition mixed_heap : nat → gmap string (list string) := λ l,
  if bool_decide (l = 0) then {[ "name" := ["A"] ]}
  else if bool_decide (l = 1) then
    {[ "name" := ["B"]; "colour" := ["red"] ]}
  else ∅.

Definition mixed_world : LocalGraph.world :=
  {| LocalGraph.heap := mixed_heap; LocalGraph.graph := igraph.Graph_empty |}.

Definition mixed_connections
    : list (LocalGraph.endpoint * LocalGraph.endpoint) :=
  [({| LocalGraph.properties := 0; LocalGraph.type := "X" |},
    {| LocalGraph.properties := 1; LocalGraph.type := "Y" |})].

(** A property type whose pattern does not compile. *)
Definition broken_pattern : PropertyType.t :=
  {| PropertyType.name := "broken";
     PropertyType.units := "";
     PropertyType.allowed_regex := "(";
     PropertyType.n_values := 1;
     PropertyType.allowed_types := [{| ComponentType.name := "antenna" |}];
     PropertyType.comments := "" |}.

(** A value the loop of [_validate] lets through: a string that fully
    matches the pattern of the type. *)
Definition passes `{RegexEngine} (T : PropertyType.t) (val : pyval) : Prop :=
  ∃ x, val = PyStr x ∧ fully_matches T x = true.

(** The count of all active property types. *)
Definition total_count (G : Gremlin.graph) : Z :=
  Z.of_nat (length (List.filter active_property_type (Gremlin.vertices G))).

(** The graph the call assigns to [self.graph], from the first occurrences
    and the locals the loop ends with. *)
Definition graph_of (firsts : list (string * gmap string (list string)))
    (L : LocalGraph.locals) : igraph.Graph :=
  {| igraph.vcount := length firsts;
     igraph.es := igraph.undirected <$> LocalGraph.vertex_index_connections L;
     igraph.vs :=
       match firsts with
       | [] => igraph.recycle (length firsts) <$> LocalGraph.vertex_properties L
       | _ :: _ =>
           <["label" := firsts.*1]>
             (igraph.recycle (length firsts) <$> LocalGraph.vertex_properties L)
       end |}.

(** The names a connection list gives to its endpoints, pair by pair. *)
Definition pair_names (h : nat → gmap string (list string))
    (conns : list (LocalGraph.endpoint * LocalGraph.endpoint))
    : list (option string * option string) :=
  (λ pair, (name_of h pair.1, name_of h pair.2)) <$> conns.

(** The example with another dictionary for the later occurrence of "A"
    and with a graph already held. *)
Definition example_heap_later : nat → gmap string (list string) := λ l,
  if bool_decide (l = 2) then
    {[ "name" := ["A"]; "colour" := ["green"]; "mass" := ["3"] ]}
  else example_heap l.

Definition example_world_later : LocalGraph.world :=
  {| LocalGraph.heap := example_heap_later;
     LocalGraph.graph := igraph.Graph_of_edges [(0, 1); (1, 2)] |}.

(** What [properties['name'][0]] raises on a dictionary without a first
    name. *)
Definition name_error (h : nat → gmap string (list string))
    (ep : LocalGraph.endpoint) : exn :=
  match h (LocalGraph.properties ep) !! "name" with
  | None => KeyError "name"
  | Some _ => IndexError
  end.

(** The example followed by a connection to a dictionary without a name. *)
Definition nameless_connections
    : list (LocalGraph.endpoint * LocalGraph.endpoint) :=
  example_connections ++
  [({| LocalGraph.properties := 0; LocalGraph.type := "X" |},
    {| LocalGraph.properties := 7; LocalGraph.type := "Z" |})].

(** * Properties *)

(** ** The method monad *)

Ltac msimpl :=
  unfold mbind, M_bind, mret, M_ret, raise, modify_state, get_state in *;
  simpl in *.

Lemma bind_ok {St A B} (m : M St A) (f : A → M St B) s s' x :
  m s = (s', inr x) → (m ≫= f) s = f x s'.
Proof. intros Hm. unfold mbind, M_bind. by rewrite Hm. Qed.

Lemma bind_raise {St A B} (m : M St A) (f : A → M St B) s s' e :
  m s = (s', inl e) → (m ≫= f) s = (s', inl e).
Proof. intros Hm. unfold mbind, M_bind. by rewrite Hm. Qed.

(** ** Strings *)

Lemma prefix_app (a b : string) : String.prefix a (a +:+ b) = true.
Proof.
  induction a as [|c a IH]; simpl.
  - by destruct b.
  - destruct (Ascii.ascii_dec c c); [done | congruence].
Qed.

Lemma contains_unfold (s sub : string) :
  contains s sub =
  String.prefix sub s ||
  match s with EmptyString => false | String _ s' => contains s' sub end.
Proof. by destruct s. Qed.

Lemma contains_prefix (a b : string) : contains (a +:+ b) a = true.
Proof. by rewrite contains_unfold, prefix_app. Qed.

Lemma contains_app_r (a b sub : string) :
  contains b sub = true → contains (a +:+ b) sub = true.
Proof.
  intros Hb. induction a as [|c a IH]; [done|].
  change (String c a +:+ b) with (String c (a +:+ b)).
  rewrite contains_unfold, IH. apply orb_true_r.
Qed.

Lemma prefix_app_l (sub a b : string) :
  String.prefix sub a = true → String.prefix sub (a +:+ b) = true.
Proof.
  revert a. induction sub as [|d sub IH]; intros a.
  { intros _. by destruct (a +:+ b). }
  destruct a as [|c a]; [by simpl|].
  change (String c a +:+ b) with (String c (a +:+ b)). simpl.
  destruct (Ascii.ascii_dec d c); [apply IH | done].
Qed.

Lemma contains_app_l (a b sub : string) :
  contains a sub = true → contains (a +:+ b) sub = true.
Proof.
  induction a as [|c a IH].
  - rewrite !(contains_unfold _ sub), orb_false_r.
    intros Hp. by rewrite (prefix_app_l _ _ b Hp).
  - rewrite (contains_unfold (String c a)).
    intros [Hp | Hc]%orb_true_iff.
    + by rewrite contains_unfold, (prefix_app_l _ _ b Hp).
    + change (String c a +:+ b) with (String c (a +:+ b)).
      rewrite contains_unfold, (IH Hc). apply orb_true_r.
Qed.

(** ** Property: validation at construction *)

Section property.
Context `{RegexEngine} {St : Type}.
Implicit Types (T : PropertyType.t) (s : St).

Lemma check_values_ok T (v : list string) s :
  Forall (λ x, fully_matches T x = true) v →
  for_each (PyStr <$> v) (λ val _, Property.check_value T val) tt s
  = (s, inr tt).
Proof.
  induction 1 as [|x v Hx _ IH]; [done|]. simpl.
  erewrite bind_ok; [exact IH|].
  unfold Property.check_value, fully_matches in *.
  destruct (re_compile _); [|done]. by rewrite Hx.
Qed.

Lemma check_values_fail T (v : list string) s :
  regex_compiles (PropertyType.allowed_regex T) = true →
  Exists (λ x, fully_matches T x = false) v →
  ∃ pre x post,
    v = pre ++ x :: post ∧
    Forall (λ y, fully_matches T y = true) pre ∧
    fully_matches T x = false ∧
    for_each (PyStr <$> v) (λ val _, Property.check_value T val) tt s
    = (s, inl (ValueError (Property.regex_msg x T))).
Proof.
  intros Hc. induction v as [|y v IH]; intros Hex; [by inversion Hex|].
  destruct (fully_matches T y) eqn:Hy.
  - destruct IH as (pre & x & post & -> & Hpre & Hx & Hrun).
    { inversion Hex; [congruence | done]. }
    exists (y :: pre), x, post.
    split_and!; [done | by apply Forall_cons | done |]. simpl.
    erewrite bind_ok; [exact Hrun|].
    unfold Property.check_value, fully_matches in *.
    destruct (re_compile _); [|done]. by rewrite Hy.
  - exists [], y, v. split_and!; [done | done | done |]. simpl.
    erewrite bind_raise; [done|].
    unfold Property.check_value, fully_matches, regex_compiles in *.
    destruct (re_compile _); [|done]. by rewrite Hy.
Qed.

Lemma as_strings_PyStr (v : list string) :
  Property.as_strings (PyStr <$> v) = Some v.
Proof.
  unfold Property.as_strings. induction v as [|x v IH]; [done|].
  cbn in *. by rewrite IH.
Qed.

Lemma validate_arity T (vals : pyval) s :
  Z.of_nat (length (Property.as_list vals)) ≠ PropertyType.n_values T →
  Property._validate
    {| Property.kw_type := Some T; Property.kw_values := Some vals |} s
  = (s, inl (TypeError (Property.arity_msg (PropertyType.n_values T)))).
Proof.
  intros Hlen. unfold Property._validate. msimpl.
  destruct vals; simpl in *; by rewrite bool_decide_true.
Qed.

End property.

(** C3: a list of [n_values] strings that all fully match the pattern is
    accepted; the property is built without touching the state, and its
    dictionary holds exactly the values and the name, units, pattern,
    [n_values] and comments of its type. *)
Theorem property_accepts_valid `{RegexEngine} {St : Type}
    (T : PropertyType.t) (v : list string) (s : St) :
  Z.of_nat (length v) = PropertyType.n_values T →
  Forall (λ x, fully_matches T x = true) v →
  ∃ p,
    Property.__init__
      {| Property.kw_type := Some T;
         Property.kw_values := Some (PyList (PyStr <$> v)) |} s
    = (s, inr p) ∧
    Property.as_dict p
    = {| Property.repr_values := v;
         Property.repr_type :=
           {| PropertyType.repr_name := PropertyType.name T;
              PropertyType.repr_units := PropertyType.units T;
              PropertyType.repr_allowed_regex := PropertyType.allowed_regex T;
              PropertyType.repr_n_values := PropertyType.n_values T;
              PropertyType.repr_comments := PropertyType.comments T |} |}.
Proof.
  intros Hlen Hall.
  exists {| Property.type := T; Property.values := v |}. split; [|done].
  unfold Property.__init__, Property._validate. msimpl.
  rewrite length_fmap, bool_decide_false by (by intros []).
  rewrite (check_values_ok T v s Hall). simpl.
  by rewrite as_strings_PyStr.
Qed.

Lemma property_accepts_valid_witness :
  ∃ p,
    Property.__init__
      {| Property.kw_type := Some serial_number;
         Property.kw_values := Some (PyList [PyStr "12"; PyStr "7"]) |} tt
    = (tt, inr p) ∧
    Property.repr_values (Property.as_dict p) = ["12"; "7"].
Proof.
  destruct (property_accepts_valid (H:=reference_engine)
              serial_number ["12"; "7"] tt) as (p & Hp & Hd).
  - reflexivity.
  - repeat constructor.
  - exists p. split; [exact Hp | by rewrite Hd].
Defined.

(** C4, as stated, fails: with a wrong number of values the arity check
    comes first, and a value that does not match is never looked at. *)
Lemma mismatch_is_not_always_ValueError :
  ¬ (∀ (T : PropertyType.t) (v : list string),
       Exists (λ x, fully_matches (H:=reference_engine) T x = false) v →
       ∃ msg,
         (Property.__init__ (H:=reference_engine)
            {| Property.kw_type := Some T;
               Property.kw_values := Some (PyList (PyStr <$> v)) |} tt).2
         = inl (ValueError msg)).
Proof.
  intros Hclaim.
  destruct (Hclaim serial_number ["abc"]) as [msg Hmsg].
  - by left.
  - vm_compute in Hmsg. discriminate.
Qed.

(** C4, amended: when the values are as many as the type requires and the
    pattern compiles, a value that does not fully match makes construction
    fail with [ValueError]; the message names the first such value (every
    value before it matches), the name of the type and the pattern, and the
    state is untouched. *)
Theorem property_rejects_mismatch `{RegexEngine} {St : Type}
    (T : PropertyType.t) (v : list string) (s : St) :
  Z.of_nat (length v) = PropertyType.n_values T →
  regex_compiles (PropertyType.allowed_regex T) = true →
  Exists (λ x, fully_matches T x = false) v →
  ∃ pre x post msg,
    v = pre ++ x :: post ∧
    Forall (λ y, fully_matches T y = true) pre ∧
    fully_matches T x = false ∧
    Property._validate
      {| Property.kw_type := Some T;
         Property.kw_values := Some (PyList (PyStr <$> v)) |} s
    = (s, inl (ValueError msg)) ∧
    Property.__init__
      {| Property.kw_type := Some T;
         Property.kw_values := Some (PyList (PyStr <$> v)) |} s
    = (s, inl (ValueError msg)) ∧
    msg = Property.regex_msg x T ∧
    contains msg x = true ∧
    contains msg (PropertyType.name T) = true ∧
    contains msg (PropertyType.allowed_regex T) = true.
Proof.
  intros Hlen Hc Hex.
  destruct (check_values_fail T v s Hc Hex)
    as (pre & x & post & Hv & Hpre & Hx & Hrun).
  assert (Property._validate
            {| Property.kw_type := Some T;
               Property.kw_values := Some (PyList (PyStr <$> v)) |} s
          = (s, inl (ValueError (Property.regex_msg x T)))) as Hval.
  { unfold Property._validate. msimpl.
    rewrite length_fmap, bool_decide_false by (by intros []).
    by rewrite Hrun. }
  exists pre, x, post, (Property.regex_msg x T).
  split_and!; [done | done | done | done | | done | | |].
  - unfold Property.__init__. by erewrite bind_raise.
  - unfold Property.regex_msg.
    apply contains_app_r, contains_prefix.
  - unfold Property.regex_msg.
    do 3 apply contains_app_r. apply contains_prefix.
  - unfold Property.regex_msg.
    do 5 apply contains_app_r. apply contains_prefix.
Qed.

Lemma property_rejects_mismatch_witness :
  Property.__init__ (H:=reference_engine)
    {| Property.kw_type := Some serial_number;
       Property.kw_values := Some (PyList [PyStr "x1"; PyStr "y2"]) |} tt
  = (tt, inl (ValueError (Property.regex_msg "x1" serial_number))).
Proof.
  destruct (property_rejects_mismatch (H:=reference_engine)
              serial_number ["x1"; "y2"] tt)
    as (pre & x & post & msg & Hv & Hpre & _ & _ & Hrun & -> & _).
  - reflexivity.
  - reflexivity.
  - left. reflexivity.
  - destruct pre as [|y pre].
    + injection Hv as <- _. exact Hrun.
    + injection Hv as <- _. apply Forall_cons in Hpre as [Hy _].
      vm_compute in Hy. discriminate.
Defined.

(** C5, as stated, fails: the message of the arity error gives the count
    the type requires and not the count that was passed. *)
Lemma arity_message_omits_actual_count :
  ¬ (∀ (T : PropertyType.t) (v : list string),
       Z.of_nat (length v) ≠ PropertyType.n_values T →
       ∃ msg,
         (Property.__init__ (H:=reference_engine)
            {| Property.kw_type := Some T;
               Property.kw_values := Some (PyList (PyStr <$> v)) |} tt).2
         = inl (TypeError msg) ∧
         names_count msg (PropertyType.n_values T) = true ∧
         names_count msg (Z.of_nat (length v)) = true).
Proof.
  intros Hclaim.
  destruct (Hclaim serial_number ["1"; "2"; "3"]) as (msg & Hmsg & _ & Hact).
  - done.
  - vm_compute in Hmsg. injection Hmsg as <-.
    vm_compute in Hact. discriminate.
Qed.

(** C5, amended: when the values, a single scalar counting as one, are not
    as many as the type requires, construction fails with the [TypeError]
    whose message names the required count; the state is untouched. *)
Theorem property_rejects_arity `{RegexEngine} {St : Type}
    (T : PropertyType.t) (vals : pyval) (s : St) :
  Z.of_nat (length (Property.as_list vals)) ≠ PropertyType.n_values T →
  ∃ msg,
    Property._validate
      {| Property.kw_type := Some T; Property.kw_values := Some vals |} s
    = (s, inl (TypeError msg)) ∧
    Property.__init__
      {| Property.kw_type := Some T; Property.kw_values := Some vals |} s
    = (s, inl (TypeError msg)) ∧
    msg = Property.arity_msg (PropertyType.n_values T) ∧
    names_count msg (PropertyType.n_values T) = true.
Proof.
  intros Hlen. eexists. split_and!; [by apply validate_arity| |done|].
  - unfold Property.__init__.
    by erewrite bind_raise by (by apply validate_arity).
  - unfold names_count, Property.arity_msg. apply contains_prefix.
Qed.

Lemma property_rejects_arity_witness :
  ∃ msg,
    Property.__init__
      {| Property.kw_type := Some serial_number;
         Property.kw_values := Some (PyStr "12") |} tt
    = (tt, inl (TypeError msg)) ∧
    msg = "2 values are required.".
Proof.
  destruct (property_rejects_arity (H:=reference_engine)
              serial_number (PyStr "12") tt) as (msg & _ & Hrun & Hmsg & _).
  - done.
  - exists msg. split; [exact Hrun|]. rewrite Hmsg. reflexivity.
Defined.

(** C6: a value that is not a list is treated as the one-element list that
    holds it: validation has the same outcome, and so has construction,
    which on success gives the same property, hence the same dictionary. *)
Theorem property_scalar_is_singleton `{RegexEngine} {St : Type}
    (ty : option PropertyType.t) (x : pyval) (s : St) :
  isinstance_list x = false →
  Property._validate
    {| Property.kw_type := ty; Property.kw_values := Some x |} s
  = Property._validate
      {| Property.kw_type := ty; Property.kw_values := Some (PyList [x]) |} s ∧
  Property.__init__
    {| Property.kw_type := ty; Property.kw_values := Some x |} s
  = Property.__init__
      {| Property.kw_type := ty; Property.kw_values := Some (PyList [x]) |} s.
Proof.
  intros Hx. unfold Property.__init__, Property._validate. msimpl.
  rewrite Hx. simpl. split; [done|].
  destruct ty as [T|]; [|done].
  destruct x; try done; simpl;
    repeat (case_bool_decide || case_match); done.
Qed.

Lemma property_scalar_is_singleton_witness :
  Property.__init__ (H:=reference_engine)
    {| Property.kw_type := Some site_label;
       Property.kw_values := Some (PyStr "north") |} tt
  = Property.__init__ (H:=reference_engine)
      {| Property.kw_type := Some site_label;
         Property.kw_values := Some (PyList [PyStr "north"]) |} tt ∧
  Property.__init__ (H:=reference_engine)
    {| Property.kw_type := Some site_label;
       Property.kw_values := Some (PyStr "north") |} tt
  = (tt, inr {| Property.type := site_label; Property.values := ["north"] |}).
Proof.
  split.
  - apply (property_scalar_is_singleton (H:=reference_engine)). reflexivity.
  - reflexivity.
Defined.

(** ** PropertyType: construction *)

(** C9: construction validates the invariants of section 3.  When the
    arguments break one of them - [n_values] below 1, an empty
    [allowed_types], a pattern (the default one when none is given) that
    does not compile - construction signals [SchemaError] and changes
    nothing; and a property type that construction returns satisfies the
    three of them. *)
Theorem property_type_checks_invariants `{RegexEngine} {St : Type}
    (kw : PropertyType.kwargs) (s : St) :
  ((∃ nv, PropertyType.kw_n_values kw = Some nv ∧ (nv < 1)%Z) ∨
   PropertyType.kw_allowed_types kw = Some [] ∨
   regex_compiles (default ".*" (PropertyType.kw_allowed_regex kw)) = false →
   ∃ attr, PropertyType.__init__ kw s = (s, inl (SchemaError attr))) ∧
  (∀ T, (PropertyType.__init__ kw s).2 = inr T →
        (1 ≤ PropertyType.n_values T)%Z ∧
        PropertyType.allowed_types T ≠ [] ∧
        regex_compiles (PropertyType.allowed_regex T) = true).
Proof.
  unfold PropertyType.__init__, PropertyType.violated_invariant, regex_compiles.
  destruct kw as [kn ku kr knv kt kc]. cbn [PropertyType.kw_n_values
    PropertyType.kw_allowed_types PropertyType.kw_allowed_regex
    PropertyType.kw_name PropertyType.kw_units PropertyType.kw_comments].
  split.
  - intros [(nv & -> & Hnv) | [-> | Hre]].
    + cbn [from_option]. rewrite bool_decide_true by done. by eexists.
    + destruct (from_option _ false knv); [by eexists|]. by eexists.
    + destruct (from_option _ false knv); [by eexists|].
      destruct (from_option _ false kt); [by eexists|].
      destruct (re_compile _); [done | by eexists].
  - intros T HT.
    destruct knv as [nv|]; cbn [from_option] in HT.
    + case_bool_decide as Hnv; [done|].
      destruct kt as [[|ty tys]|]; cbn [from_option] in HT; [done| |].
      * rewrite bool_decide_false in HT by done.
        destruct (re_compile (default ".*" kr)) as [p|] eqn:Hre; [|done].
        destruct (check_attrs _ _); [done|].
        destruct kn; [|done]. injection HT as <-.
        cbn. rewrite Hre. split_and!; [lia | done | done].
      * destruct (re_compile (default ".*" kr)); [|done].
        destruct (check_attrs _ _); [done|]. by destruct kn.
    + destruct (from_option _ false kt); [done|].
      destruct (re_compile (default ".*" kr)); [|done].
      destruct (check_attrs _ _); [done|]. by destruct kn.
Qed.

Lemma property_type_checks_invariants_witness :
  ∃ attr,
    PropertyType.__init__ (H:=reference_engine) malformed_kwargs tt
    = (tt, inl (SchemaError attr)).
Proof.
  apply (property_type_checks_invariants (H:=reference_engine)
           malformed_kwargs tt).
  left. exists 0%Z. split; [reflexivity | lia].
Defined.

(** ** PropertyType.get_count *)

Lemma flat_map_if {A} (p : A → bool) (l : list A) :
  flat_map (λ v, if p v then [v] else []) l = List.filter p l.
Proof.
  induction l as [|x l IH]; [done|]. simpl. rewrite IH. by destruct (p x).
Qed.

Lemma filter_filter_andb {A} (p q : A → bool) (l : list A) :
  List.filter q (List.filter p l) = List.filter (λ v, p v && q v) l.
Proof.
  induction l as [|x l IH]; [done|]. simpl.
  destruct (p x); simpl; [|done]. destruct (q x); by rewrite IH.
Qed.

Lemma filter_ext_bool {A} (p q : A → bool) (l : list A) :
  (∀ x, p x = q x) → List.filter p l = List.filter q l.
Proof.
  intros Hpq. induction l as [|x l IH]; [done|]. simpl.
  by rewrite Hpq, IH.
Qed.

Lemma emits_flat_map {A B} (f : A → list B) (l : list A) :
  Gremlin.emits (flat_map f l) = existsb (λ x, Gremlin.emits (f x)) l.
Proof.
  induction l as [|x l IH]; [done|]. simpl.
  destruct (f x); simpl; [done | done].
Qed.

Lemma emits_app {A} (l1 l2 : list A) :
  Gremlin.emits (l1 ++ l2) = Gremlin.emits l1 || Gremlin.emits l2.
Proof. by destruct l1. Qed.

Lemma emits_filter {A} (p : A → bool) (l : list A) :
  Gremlin.emits (List.filter p l) = existsb p l.
Proof.
  induction l as [|x l IH]; [done|]. simpl. by destruct (p x).
Qed.

Lemma existsb_filter {A} (p q : A → bool) (l : list A) :
  existsb q (List.filter p l) = existsb (λ x, p x && q x) l.
Proof.
  induction l as [|x l IH]; [done|]. simpl.
  destruct (p x); simpl; by rewrite IH.
Qed.

Lemma existsb_ext_bool {A} (p q : A → bool) (l : list A) :
  (∀ x, p x = q x) → existsb p l = existsb q l.
Proof.
  intros Hpq. induction l as [|x l IH]; [done|]. simpl. by rewrite Hpq, IH.
Qed.

Lemma step_has G key p v :
  Gremlin.step_apply G (Gremlin.has key p) v
  = if has_test key p v then [v] else [].
Proof. unfold has_test. simpl. by destruct (_ !! _). Qed.

Lemma run_app G t1 t2 vs :
  Gremlin.run G (t1 ++ t2) vs = Gremlin.run G t2 (Gremlin.run G t1 vs).
Proof. unfold Gremlin.run. apply foldl_app. Qed.

Lemma run_has G key p vs :
  Gremlin.run G [Gremlin.has key p] vs = List.filter (has_test key p) vs.
Proof.
  unfold Gremlin.run. cbn [foldl]. rewrite <- flat_map_if.
  apply flat_map_ext. intros v. apply step_has.
Qed.

Lemma has_test_eq key x v :
  has_test key (Gremlin.eq x) v
  = bool_decide (Gremlin.vprops v !! key = Some x).
Proof.
  unfold has_test. destruct (_ !! _) as [y|]; simpl.
  - apply bool_decide_ext. naive_solver.
  - done.
Qed.

Lemma step_or G ands v :
  Gremlin.step_apply G (Gremlin.or_ ands) v
  = if existsb (λ t, Gremlin.emits (Gremlin.run G t [v])) ands
    then [v] else [].
Proof. reflexivity. Qed.

Lemma step_and G contents v :
  Gremlin.step_apply G (Gremlin.and_ contents) v
  = if forallb (λ t, Gremlin.emits (Gremlin.run G t [v])) contents
    then [v] else [].
Proof. reflexivity. Qed.

Lemma emits_name_clause G v sub :
  Gremlin.emits
    (Gremlin.run G [Gremlin.has "name" (Gremlin.containing sub)] [v])
  = name_contains v sub.
Proof.
  rewrite run_has. simpl. unfold has_test, name_contains.
  destruct (_ !! _) as [[]|]; simpl; try done. by destruct (contains _ _).
Qed.

Lemma named_spec G i owner :
  existsb
    (has_test "name" (Gremlin.eq (Gremlin.VStr owner)))
    (Gremlin.with_id G i)
  = named G i owner.
Proof.
  unfold Gremlin.with_id, named. rewrite existsb_filter.
  apply existsb_ext_bool. intros w. by rewrite has_test_eq.
Qed.

Lemma emits_owner_clause G rel v owner :
  Gremlin.emits
    (Gremlin.run G
       [Gremlin.both rel;
        Gremlin.has "name" (Gremlin.eq (Gremlin.VStr owner))] [v])
  = permitted_on G rel v owner.
Proof.
  change [Gremlin.both rel; Gremlin.has "name" (Gremlin.eq (Gremlin.VStr owner))]
    with ([Gremlin.both rel] ++
          [Gremlin.has "name" (Gremlin.eq (Gremlin.VStr owner))]).
  rewrite run_app, run_has, emits_filter.
  unfold Gremlin.run. simpl. rewrite app_nil_r.
  unfold Gremlin.neighbours, permitted_on.
  induction (Gremlin.edges G) as [|e es IH]; [done|]. simpl.
  rewrite existsb_app, IH. f_equal.
  destruct (bool_decide (Gremlin.elabel e = rel)); simpl; [|done].
  rewrite existsb_app.
  destruct (bool_decide (Gremlin.eout e = Gremlin.vid v)),
           (bool_decide (Gremlin.ein e = Gremlin.vid v));
    simpl; rewrite ?named_spec, ?orb_false_r; done.
Qed.

Lemma filter_body_tuple2 {St} rel (f : string * string) ands (s : St) :
  PropertyType.filter_body rel (tuple2 f) ands s
  = (s, inr (ands ++ (if constrains f then [and_of rel f] else []))).
Proof.
  destruct f as [f0 f1]. unfold PropertyType.filter_body, constrains, and_of.
  simpl.
  destruct (bool_decide (f0 ≠ "")), (bool_decide (f1 ≠ "")); simpl;
    rewrite ?app_nil_r; done.
Qed.

Lemma for_each_filter_body {St} rel (fs : list (string * string)) ands (s : St) :
  for_each (tuple2 <$> fs) (PropertyType.filter_body rel) ands s
  = (s, inr (ands ++ (and_of rel <$> List.filter constrains fs))).
Proof.
  revert ands. induction fs as [|f fs IH]; intros ands; simpl.
  - by rewrite app_nil_r.
  - erewrite bind_ok by apply filter_body_tuple2. rewrite IH.
    destruct (constrains f); simpl; by rewrite <- ?app_assoc, ?app_nil_r.
Qed.

Lemma run_single G st v :
  Gremlin.run G [st] [v] = Gremlin.step_apply G st v.
Proof. unfold Gremlin.run. cbn [foldl flat_map]. apply app_nil_r. Qed.

Lemma emits_if_singleton {A} (b : bool) (x : A) :
  Gremlin.emits (if b then [x] else []) = b.
Proof. by destruct b. Qed.

Lemma emits_and_of G rel v f :
  constrains f = true →
  Gremlin.emits (Gremlin.run G (and_of rel f) [v]) = filter_matches G rel v f.
Proof.
  intros Hf. unfold and_of. rewrite run_single, step_and, emits_if_singleton.
  unfold filter_matches, constrains in *.
  destruct (decide (f.1 = "")) as [E1|E1], (decide (f.2 = "")) as [E2|E2].
  - rewrite !bool_decide_false in Hf by naive_solver. done.
  - rewrite (bool_decide_false (f.1 ≠ "")), (bool_decide_true (f.2 ≠ ""))
      by naive_solver.
    rewrite (bool_decide_true (f.1 = "")), (bool_decide_false (f.2 = ""))
      by done.
    cbn [app forallb andb orb]. by rewrite emits_owner_clause, andb_true_r.
  - rewrite (bool_decide_true (f.1 ≠ "")), (bool_decide_false (f.2 ≠ ""))
      by naive_solver.
    rewrite (bool_decide_false (f.1 = "")), (bool_decide_true (f.2 = ""))
      by done.
    cbn [app forallb andb orb]. by rewrite emits_name_clause.
  - rewrite (bool_decide_true (f.1 ≠ "")), (bool_decide_true (f.2 ≠ ""))
      by naive_solver.
    rewrite (bool_decide_false (f.1 = "")), (bool_decide_false (f.2 = ""))
      by done.
    cbn [app forallb andb orb]. by rewrite emits_name_clause, emits_owner_clause, andb_true_r.
Qed.

Lemma base_traversal G vs :
  Gremlin.run G
    [Gremlin.has "active" (Gremlin.eq (Gremlin.VBool true));
     Gremlin.has "category" (Gremlin.eq (Gremlin.VStr PropertyType.category))]
    vs
  = List.filter active_property_type vs.
Proof.
  change [Gremlin.has "active" (Gremlin.eq (Gremlin.VBool true));
          Gremlin.has "category" (Gremlin.eq (Gremlin.VStr PropertyType.category))]
    with ([Gremlin.has "active" (Gremlin.eq (Gremlin.VBool true))] ++
          [Gremlin.has "category"
             (Gremlin.eq (Gremlin.VStr PropertyType.category))]).
  rewrite run_app, !run_has, filter_filter_andb.
  apply filter_ext_bool. intros v. by rewrite !has_test_eq.
Qed.

Lemma existsb_fmap {A B} (f : A → B) (p : B → bool) (l : list A) :
  existsb p (f <$> l) = existsb (λ x, p (f x)) l.
Proof. induction l as [|x l IH]; [done|]. cbn in *. by rewrite IH. Qed.

Lemma existsb_ext_Forall {A} (p q : A → bool) (r : A → bool) (l : list A) :
  (∀ x, r x = true → p x = q x) →
  existsb p (List.filter r l) = existsb q (List.filter r l).
Proof.
  intros Hpq. induction l as [|x l IH]; [done|]. simpl.
  destruct (r x) eqn:Hr; [|done]. simpl. by rewrite Hpq, IH.
Qed.

Lemma run_or G ands vs :
  Gremlin.run G [Gremlin.or_ ands] vs
  = List.filter
      (λ v, existsb (λ t, Gremlin.emits (Gremlin.run G t [v])) ands) vs.
Proof.
  unfold Gremlin.run. cbn [foldl]. rewrite <- flat_map_if.
  apply flat_map_ext. intros v. apply step_or.
Qed.

(** C1, as stated, fails: a filter with two empty elements, next to a
    filter that constrains, does not make every property type match; it is
    left out of the disjunction. *)
Lemma empty_filter_is_dropped :
  ¬ (∀ rel fs s,
       (PropertyType.get_count rel (Some (tuple2 <$> fs)) s).2
       = inr (count_disjunction (db s) rel fs)).
Proof.
  intros Hclaim.
  specialize (Hclaim "rel_property_allowed_type" [("Volt", ""); ("", "")]
                example_store).
  vm_compute in Hclaim. discriminate.
Qed.

(** C1, amended: [get_count] sends one traversal and returns the number of
    active property types that match the disjunction of the filters with a
    non-empty element, every active property type when no filter has one;
    a filter is the conjunction of its non-empty clauses. *)
Theorem get_count_counts_disjunction (rel : string)
    (fs : list (string * string)) (s : g_state) :
  ∃ t,
    PropertyType.get_count rel (Some (tuple2 <$> fs)) s
    = ({| db := db s; submitted := submitted s ++ [t] |},
       inr (count_disjunction (db s) rel (List.filter constrains fs))).
Proof.
  unfold PropertyType.get_count.
  set (base := [Gremlin.has "active" (Gremlin.eq (Gremlin.VBool true));
                Gremlin.has "category"
                  (Gremlin.eq (Gremlin.VStr PropertyType.category))]).
  destruct (List.filter constrains fs) as [|f fs'] eqn:Hfs.
  - exists base. erewrite bind_ok; cycle 1.
    { erewrite bind_ok by apply for_each_filter_body. rewrite Hfs.
      cbn [app fmap list_fmap length]. by rewrite bool_decide_false by lia. }
    unfold count_next, count_disjunction, Gremlin.V_count. do 3 f_equal.
    subst base. rewrite base_traversal. f_equal. apply filter_ext_bool.
    intros v. by rewrite bool_decide_true, andb_true_r.
  - exists (base ++ [Gremlin.or_ (and_of rel <$> f :: fs')]).
    erewrite bind_ok; cycle 1.
    { erewrite bind_ok by apply for_each_filter_body. rewrite Hfs.
      cbn [app]. by rewrite bool_decide_true by (simpl; lia). }
    unfold count_next, count_disjunction, Gremlin.V_count. do 3 f_equal.
    subst base. rewrite run_app, base_traversal, run_or, filter_filter_andb.
    f_equal. apply filter_ext_bool. intros v. f_equal.
    rewrite bool_decide_false by done. cbn [orb].
    rewrite <- Hfs, existsb_fmap.
    apply existsb_ext_Forall. intros x Hx. by apply emits_and_of.
Qed.

(** When every filter constrains, the count is the one of section 4.1. *)
Lemma filter_constrains_all (fs : list (string * string)) :
  Forall (λ f, constrains f = true) fs → List.filter constrains fs = fs.
Proof.
  induction 1 as [|f fs Hf _ IH]; [done|]. simpl. by rewrite Hf, IH.
Qed.

Lemma filter_body_length {St} rel (f : list string) ands (s : St) :
  (length f = 2 ∧ ∃ ands', PropertyType.filter_body rel f ands s
                           = (s, inr ands')) ∨
  (length f ≠ 2 ∧ PropertyType.filter_body rel f ands s
                  = (s, inl AssertionError)).
Proof.
  destruct f as [|a [|b [|c f]]]; simpl; try (right; split; [lia | done]).
  left. split; [done|].
  destruct (bool_decide (a ≠ "")), (bool_decide (b ≠ "")); simpl; eauto.
Qed.

(** C8: a filter whose length is not 2 makes [get_count] fail with the
    assertion error, and no traversal is sent to the store. *)
Theorem get_count_rejects_malformed (rel : string)
    (filters : list (list string)) (s : g_state) :
  Exists (λ f, length f ≠ 2) filters →
  PropertyType.get_count rel (Some filters) s = (s, inl AssertionError).
Proof.
  intros Hex. unfold PropertyType.get_count.
  erewrite bind_raise; [done|]. erewrite bind_raise; [done|].
  generalize (@nil Gremlin.traversal) as ands.
  induction Hex as [f fs Hf | f fs _ IH]; intros ands; simpl.
  - destruct (filter_body_length rel f ands s) as [[? _] | [_ Hr]]; [done|].
    by erewrite bind_raise.
  - destruct (filter_body_length rel f ands s) as [[_ [a Hr]] | [_ Hr]].
    + erewrite bind_ok by done. apply IH.
    + by erewrite bind_raise.
Qed.

Lemma get_count_rejects_malformed_witness :
  PropertyType.get_count "rel_property_allowed_type"
    (Some [["Volt"; ""]; ["Volt"; "antenna"; "x"]]) example_store
  = (example_store, inl AssertionError).
Proof.
  apply get_count_rejects_malformed. right. left. simpl. lia.
Defined.

(** ** LocalGraph: the caller's dictionaries *)

Lemma heap_set_type_self ep w :
  LocalGraph.heap (LocalGraph.set_type ep w) (LocalGraph.properties ep)
  = bag (LocalGraph.heap w) ep.
Proof. unfold LocalGraph.set_type, bag. simpl. apply fn_lookup_insert. Qed.

Lemma heap_set_type_other ep w l :
  l ≠ LocalGraph.properties ep →
  LocalGraph.heap (LocalGraph.set_type ep w) l = LocalGraph.heap w l.
Proof.
  intros Hl. unfold LocalGraph.set_type. simpl.
  by apply fn_lookup_insert_ne.
Qed.

Lemma bag_set_type ep' w ep :
  bag (LocalGraph.heap (LocalGraph.set_type ep' w)) ep
  = bag (LocalGraph.heap w) ep.
Proof.
  unfold bag.
  destruct (decide (LocalGraph.properties ep = LocalGraph.properties ep'))
    as [Heq|Hne].
  - rewrite Heq, heap_set_type_self. unfold bag. apply insert_insert_eq.
  - by rewrite heap_set_type_other.
Qed.

Lemma bag_mark_types eps w ep :
  bag (LocalGraph.heap (mark_types eps w)) ep = bag (LocalGraph.heap w) ep.
Proof.
  revert w. induction eps as [|ep' eps IH]; intros w; [done|].
  unfold mark_types in *. simpl. by rewrite IH, bag_set_type.
Qed.

Lemma graph_mark_types eps w :
  LocalGraph.graph (mark_types eps w) = LocalGraph.graph w.
Proof.
  revert w. induction eps as [|ep' eps IH]; intros w; [done|].
  unfold mark_types in *. simpl. by rewrite IH.
Qed.

Lemma mark_types_app eps1 eps2 w :
  mark_types (eps1 ++ eps2) w = mark_types eps2 (mark_types eps1 w).
Proof. apply foldl_app. Qed.

Lemma mark_types_snoc eps ep w :
  mark_types (eps ++ [ep]) w = LocalGraph.set_type ep (mark_types eps w).
Proof. by rewrite mark_types_app. Qed.

(** The dictionary of an endpoint after the marking is the original one
    with the label of the last endpoint that shares it. *)
Lemma heap_mark_types eps w l :
  (∀ ep, ep ∈ eps → LocalGraph.properties ep ≠ l) ∧
    LocalGraph.heap (mark_types eps w) l = LocalGraph.heap w l
  ∨ ∃ ep, ep ∈ eps ∧ LocalGraph.properties ep = l ∧
      LocalGraph.heap (mark_types eps w) l = bag (LocalGraph.heap w) ep.
Proof.
  induction eps as [|ep eps IH] using rev_ind.
  - left. split; [by intros ? ?%elem_of_nil | done].
  - rewrite mark_types_snoc.
    destruct (decide (l = LocalGraph.properties ep)) as [->|Hne].
    + right. exists ep. split_and!; [|done|].
      * apply elem_of_app. right. by left.
      * by rewrite heap_set_type_self, bag_mark_types.
    + rewrite heap_set_type_other by done.
      destruct IH as [[Hno Hh] | (ep' & Hin & Hl & Hh)].
      * left. split; [|done].
        intros ep' [?| ->%list_elem_of_singleton]%elem_of_app;
          [by apply Hno | done].
      * right. exists ep'. split_and!; [|done|done].
        apply elem_of_app. by left.
Qed.

(** ** LocalGraph: the attribute columns *)

Lemma copy_first_values_spec (props vp : gmap string (list string)) :
  map_Forall (λ _ col, col ≠ []) props →
  ∃ vp',
    LocalGraph.copy_first_values props vp = inr vp' ∧
    ∀ key,
      vp' !! key
      = match first_value props key with
        | Some v => Some (default [] (vp !! key) ++ [v])
        | None => vp !! key
        end.
Proof.
  unfold LocalGraph.copy_first_values.
  apply (map_fold_weak_ind (λ r m,
    map_Forall (λ _ col, col ≠ []) m →
    ∃ vp', r = inr vp' ∧
      ∀ key, vp' !! key
             = match first_value m key with
               | Some v => Some (default [] (vp !! key) ++ [v])
               | None => vp !! key
               end)).
  - intros _. exists vp. split; [done|]. intros key.
    unfold first_value. by rewrite lookup_empty.
  - intros i x m r Hi IH Hall.
    apply map_Forall_insert in Hall as [Hx Hall]; [|done].
    destruct (IH Hall) as (vp1 & -> & Hvp1).
    destruct x as [|v x]; [done|].
    eexists. split; [done|]. intros key.
    unfold first_value in *.
    destruct (decide (key = i)) as [->|Hne].
    + rewrite !lookup_insert_eq. simpl.
      specialize (Hvp1 i). rewrite Hi in Hvp1. simpl in Hvp1.
      by rewrite Hvp1.
    + rewrite !lookup_insert_ne by done. apply Hvp1.
Qed.

Lemma recycle_id (n : nat) (l : list string) :
  length l = n → igraph.recycle n l = l.
Proof.
  intros <-. unfold igraph.recycle. destruct l as [|x l]; [done|].
  remember (x :: l) as l' eqn:Hl'.
  replace (replicate (length l') l')
    with (l' :: replicate (length l) l') by (by subst).
  change (mjoin (l' :: replicate (length l) l'))
    with (l' ++ mjoin (replicate (length l) l')).
  apply take_app_length.
Qed.

Lemma set_attributes_spec (vp : gmap string (list string)) w :
  map_Forall (λ _ col, col ≠ []) vp →
  LocalGraph.set_attributes vp w
  = (LocalGraph.set_graph
       {| igraph.vcount := igraph.vcount (LocalGraph.graph w);
          igraph.es := igraph.es (LocalGraph.graph w);
          igraph.vs :=
            (igraph.recycle (igraph.vcount (LocalGraph.graph w)) <$> vp)
            ∪ igraph.vs (LocalGraph.graph w) |} w,
     inr tt).
Proof.
  unfold LocalGraph.set_attributes.
  set (g0 := LocalGraph.graph w).
  set (f := λ (key : string) (col : list string)
              (acc : igraph.Graph * option exn), _).
  assert (map_Forall (λ _ col, col ≠ []) vp →
          map_fold f (g0, None) vp
          = ({| igraph.vcount := igraph.vcount g0;
                igraph.es := igraph.es g0;
                igraph.vs := (igraph.recycle (igraph.vcount g0) <$> vp)
                             ∪ igraph.vs g0 |}, None)) as Hfold.
  { apply (map_fold_weak_ind (λ r m,
      map_Forall (λ _ col, col ≠ []) m →
      r = ({| igraph.vcount := igraph.vcount g0;
              igraph.es := igraph.es g0;
              igraph.vs := (igraph.recycle (igraph.vcount g0) <$> m)
                           ∪ igraph.vs g0 |}, None))).
    - intros _. rewrite fmap_empty, (left_id_L ∅ (∪)). by destruct g0.
    - intros i x m r Hi IH Hall.
      apply map_Forall_insert in Hall as [Hx Hall]; [|done].
      rewrite (IH Hall). unfold f, igraph.vs_set. simpl.
      rewrite bool_decide_false by (by intros [? _]).
      by rewrite fmap_insert, insert_union_l. }
  intros Hall. by rewrite (Hfold Hall).
Qed.

(** ** LocalGraph: the loop *)

Lemma first_value_Some (b : gmap string (list string)) key v :
  first_value b key = Some v → ∃ l, b !! key = Some (v :: l).
Proof.
  unfold first_value. destruct (b !! key) as [[|x l]|]; simpl; try done.
  intros [= ->]. eauto.
Qed.

Lemma see_cases h firsts ep n :
  name_of h ep = Some n →
  (n ∈ (firsts.*1) ∧ see h firsts ep = firsts) ∨
  ((n ∉ firsts.*1) ∧ see h firsts ep = firsts ++ [(n, bag h ep)]).
Proof.
  intros Hn. unfold see. rewrite Hn. case_bool_decide; eauto.
Qed.

Lemma see_lookup_mono h firsts ep i n :
  (firsts.*1) !! i = Some n → ((see h firsts ep).*1) !! i = Some n.
Proof.
  intros Hi. unfold see. destruct (name_of h ep); [|done].
  case_bool_decide; [done|]. rewrite fmap_app. by apply lookup_app_l_Some.
Qed.

Lemma column_snoc key firsts n b :
  column key (firsts ++ [(n, b)])
  = column key firsts ++ match first_value b key with
                         | Some v => [v]
                         | None => []
                         end.
Proof.
  unfold column. rewrite omap_app. by f_equal.
Qed.

Lemma some_if_emits_snoc {A} (l : list A) (x : A) :
  some_if_emits (l ++ [x]) = Some (default [] (some_if_emits l) ++ [x]).
Proof. by destruct l. Qed.

Lemma endpoint_body_spec h ep firsts L idx w n :
  (∀ ep', bag (LocalGraph.heap w) ep' = bag h ep') →
  represents firsts L →
  name_of h ep = Some n →
  map_Forall (λ _ col, col ≠ []) (bag h ep) →
  ∃ L' i,
    LocalGraph.endpoint_body ep (L, idx) w
    = (LocalGraph.set_type ep w, inr (L', idx ++ [i])) ∧
    represents (see h firsts ep) L' ∧
    LocalGraph.vertex_index_connections L'
    = LocalGraph.vertex_index_connections L ∧
    ((see h firsts ep).*1) !! i = Some n ∧
    (see h firsts ep = firsts ∨
     (see h firsts ep = firsts ++ [(n, bag h ep)] ∧ i = length firsts)).
Proof.
  intros Hbags (Hlen & Hind & Hcols) Hn Hall.
  unfold LocalGraph.endpoint_body.
  unfold mbind, M_bind, modify_state, get_state. cbn beta iota.
  rewrite heap_set_type_self, Hbags.
  destruct (first_value_Some _ _ _ Hn) as [l Hname]. rewrite Hname.
  destruct (see_cases h firsts ep n Hn) as [[Hin Hsee] | [Hnin Hsee]].
  - apply list_elem_of_lookup in Hin as [i Hi].
    pose proof (proj2 (Hind n i) Hi) as Hni.
    rewrite Hni. unfold mret, M_ret. rewrite Hni.
    exists L, i. rewrite Hsee. by split_and!; [| |  | | left].
  - destruct (LocalGraph.vertex_name_to_ind L !! n) as [i|] eqn:Hni.
    { apply Hind in Hni. destruct Hnin. apply list_elem_of_lookup. eauto. }
    destruct (copy_first_values_spec (bag h ep)
                (LocalGraph.vertex_properties L) Hall) as (vp' & -> & Hvp').
    unfold mret, M_ret. cbn [LocalGraph.vertex_name_to_ind].
    rewrite lookup_insert_eq.
    eexists _, _. split; [reflexivity|]. rewrite Hsee.
    split_and!; [| done | | by right].
    + split_and!; cbn.
      * rewrite length_app. simpl. lia.
      * intros n' i. rewrite fmap_app.
        change ([(n, bag h ep)].*1) with [n].
        rewrite lookup_snoc_Some, length_fmap.
        destruct (decide (n' = n)) as [->|Hne].
        -- rewrite lookup_insert_eq. split.
           ++ intros [= <-]. right. by rewrite Hlen.
           ++ intros [[_ Hi] | [-> _]]; [|by rewrite Hlen].
              destruct Hnin. apply list_elem_of_lookup. eauto.
        -- rewrite lookup_insert_ne by done. rewrite Hind. split.
           ++ intros Hi. left. split; [|done].
              apply lookup_lt_Some in Hi. by rewrite length_fmap in Hi.
           ++ intros [[_ Hi] | [_ Hi]]; [done | congruence].
      * intros key. rewrite Hvp', column_snoc, Hcols.
        destruct (first_value (bag h ep) key).
        -- by rewrite some_if_emits_snoc.
        -- by rewrite app_nil_r.
    + rewrite fmap_app, Hlen, <- (length_fmap fst).
      change ([(n, bag h ep)].*1) with [n].
      by rewrite list_lookup_middle.
Qed.

Lemma vcount_foldr (edges : list (nat * nat)) (a : nat) :
  foldr (λ e n, (S (fst e) `max` S (snd e)) `max` n) a edges
  = foldr (λ e n, (S (fst e) `max` S (snd e)) `max` n) 0 edges `max` a.
Proof.
  induction edges as [|e edges IH]; cbn [foldr]; [done|]. rewrite IH. lia.
Qed.

Lemma vcount_snoc (edges : list (nat * nat)) (i j : nat) :
  igraph.vcount (igraph.Graph_of_edges (edges ++ [(i, j)]))
  = igraph.vcount (igraph.Graph_of_edges edges) `max` (S i `max` S j).
Proof.
  unfold igraph.Graph_of_edges. cbn [igraph.vcount].
  rewrite foldr_app. cbn [foldr]. rewrite vcount_foldr. simpl. lia.
Qed.

Lemma pair_body_spec h pair firsts L w na nb :
  (∀ ep', bag (LocalGraph.heap w) ep' = bag h ep') →
  represents firsts L →
  name_of h pair.1 = Some na →
  map_Forall (λ _ col, col ≠ []) (bag h pair.1) →
  name_of h pair.2 = Some nb →
  map_Forall (λ _ col, col ≠ []) (bag h pair.2) →
  ∃ L' i j,
    LocalGraph.pair_body pair L w
    = (LocalGraph.set_type pair.2 (LocalGraph.set_type pair.1 w), inr L') ∧
    represents (see h (see h firsts pair.1) pair.2) L' ∧
    LocalGraph.vertex_index_connections L'
    = LocalGraph.vertex_index_connections L ++ [(i, j)] ∧
    ((see h (see h firsts pair.1) pair.2).*1) !! i = Some na ∧
    ((see h (see h firsts pair.1) pair.2).*1) !! j = Some nb ∧
    length (see h (see h firsts pair.1) pair.2)
    = length firsts `max` (S i `max` S j).
Proof.
  intros Hbags Hrep Hna Halla Hnb Hallb.
  destruct (endpoint_body_spec h pair.1 firsts L [] w na Hbags Hrep Hna Halla)
    as (L1 & i & Hrun1 & Hrep1 & Hvic1 & Hi & Hcase1).
  set (firsts1 := see h firsts pair.1) in *.
  assert (∀ ep', bag (LocalGraph.heap (LocalGraph.set_type pair.1 w)) ep'
                 = bag h ep') as Hbags1.
  { intros ep'. by rewrite bag_set_type. }
  destruct (endpoint_body_spec h pair.2 firsts1 L1 ([] ++ [i])
              (LocalGraph.set_type pair.1 w) nb Hbags1 Hrep1 Hnb Hallb)
    as (L2 & j & Hrun2 & Hrep2 & Hvic2 & Hj & Hcase2).
  set (firsts2 := see h firsts1 pair.2) in *.
  eexists _, i, j. split_and!.
  - unfold LocalGraph.pair_body. erewrite bind_ok; cycle 1.
    { cbn [for_each]. erewrite bind_ok by exact Hrun1.
      erewrite bind_ok by exact Hrun2. reflexivity. }
    reflexivity.
  - destruct Hrep2 as (? & ? & ?). by split_and!.
  - cbn. by rewrite Hvic2, Hvic1.
  - by apply see_lookup_mono.
  - done.
  - pose proof (lookup_lt_Some _ _ _ Hi) as Hi'.
    pose proof (lookup_lt_Some _ _ _ Hj) as Hj'.
    rewrite length_fmap in Hi', Hj'.
    destruct Hcase1 as [E1 | [E1 ->]], Hcase2 as [E2 | [E2 ->]];
      rewrite ?E2, ?E1, ?length_app in *; simpl in *; lia.
Qed.

Lemma endpoints_snoc pre pair :
  endpoints (pre ++ [pair]) = endpoints pre ++ [pair.1; pair.2].
Proof. unfold endpoints. by rewrite flat_map_app. Qed.

Lemma first_occurrences_snoc h pre pair :
  first_occurrences h (endpoints (pre ++ [pair]))
  = see h (see h (first_occurrences h (endpoints pre)) pair.1) pair.2.
Proof.
  unfold first_occurrences. by rewrite endpoints_snoc, foldl_app.
Qed.

Lemma well_formed_cons h pair conns :
  well_formed h (pair :: conns) →
  (is_Some (name_of h pair.1) ∧
   map_Forall (λ _ col, col ≠ []) (bag h pair.1)) ∧
  (is_Some (name_of h pair.2) ∧
   map_Forall (λ _ col, col ≠ []) (bag h pair.2)) ∧
  well_formed h conns.
Proof.
  unfold well_formed, endpoints. simpl.
  intros Hwf. apply Forall_cons in Hwf as [? Hwf].
  apply Forall_cons in Hwf as [? Hwf]. done.
Qed.

Lemma loop_spec h conns : ∀ pre L w,
  (∀ ep', bag (LocalGraph.heap w) ep' = bag h ep') →
  loop_inv h pre L →
  well_formed h conns →
  ∃ L',
    for_each conns LocalGraph.pair_body L w
    = (mark_types (endpoints conns) w, inr L') ∧
    loop_inv h (pre ++ conns) L'.
Proof.
  induction conns as [|pair conns IH]; intros pre L w Hbags Hinv Hwf.
  - exists L. split; [done|]. by rewrite app_nil_r.
  - apply well_formed_cons in Hwf
      as (([na Hna] & Halla) & ([nb Hnb] & Hallb) & Hwf).
    destruct Hinv as (Hrep & Hvc & Hlen & Hedges).
    destruct (pair_body_spec h pair _ L w na nb Hbags Hrep Hna Halla Hnb Hallb)
      as (L1 & i & j & Hrun & Hrep1 & Hvic & Hi & Hj & Hlen1).
    destruct (IH (pre ++ [pair]) L1
                (LocalGraph.set_type pair.2 (LocalGraph.set_type pair.1 w)))
      as (L' & Hrun' & Hinv'); [| |done|].
    + intros ep'. by rewrite !bag_set_type.
    + rewrite <- first_occurrences_snoc in *. split_and!; [done| | |].
      * rewrite Hvic, vcount_snoc, Hvc, Hlen1. done.
      * rewrite Hvic, !length_app, Hlen. done.
      * intros k pair' Hk. apply lookup_snoc_Some in Hk as [[Hk Hpre] | [-> <-]].
        -- destruct (Hedges k pair' Hpre)
             as (i' & j' & na' & nb' & Hk' & Hna' & Hnb' & Hi' & Hj').
           exists i', j', na', nb'. rewrite Hvic, first_occurrences_snoc.
           split_and!; [|done|done| |].
           ++ by apply lookup_app_l_Some.
           ++ by do 2 apply see_lookup_mono.
           ++ by do 2 apply see_lookup_mono.
        -- exists i, j, na, nb. rewrite Hvic, <- Hlen.
           split_and!; [|done|done|done|done].
           by rewrite list_lookup_middle.
    + exists L'. split.
      * cbn [for_each]. erewrite bind_ok by exact Hrun.
        rewrite Hrun'. done.
      * by rewrite <- app_assoc in Hinv'.
Qed.

(** ** LocalGraph: first occurrences *)

Lemma see_NoDup h firsts ep : NoDup (firsts.*1) → NoDup ((see h firsts ep).*1).
Proof.
  intros Hnd. unfold see. destruct (name_of h ep) as [n|]; [|done].
  case_bool_decide as Hin; [done|].
  rewrite fmap_app. apply NoDup_app. split_and!; [done| |].
  - intros x Hx ->%list_elem_of_singleton. done.
  - apply NoDup_singleton.
Qed.

Lemma first_occurrences_NoDup h eps : NoDup ((first_occurrences h eps).*1).
Proof.
  unfold first_occurrences.
  induction eps as [|ep eps IH] using rev_ind; [constructor|].
  rewrite foldl_app. by apply see_NoDup.
Qed.

Lemma see_names h firsts ep n :
  n ∈ (see h firsts ep).*1 ↔ n ∈ firsts.*1 ∨ name_of h ep = Some n.
Proof.
  unfold see. destruct (name_of h ep) as [n'|].
  - case_bool_decide as Hin.
    + split; [by left|]. intros [?|[= <-]]; done.
    + rewrite fmap_app, elem_of_app.
      change ([(n', bag h ep)].*1) with [n'].
      rewrite list_elem_of_singleton.
      split; (intros [?|?]; [by left | right; congruence]).
  - split; [by left|]. by intros [?|?].
Qed.

Lemma first_occurrences_names h eps n :
  n ∈ (first_occurrences h eps).*1 ↔ ∃ ep, ep ∈ eps ∧ name_of h ep = Some n.
Proof.
  unfold first_occurrences.
  induction eps as [|ep eps IH] using rev_ind.
  - split; [by intros ?%elem_of_nil | by intros (? & ?%elem_of_nil & _)].
  - rewrite foldl_app. cbn [foldl]. rewrite see_names, IH. split.
    + intros [(ep' & Hin & Hn) | Hn].
      * exists ep'. split; [|done]. apply elem_of_app. by left.
      * exists ep. split; [|done]. apply elem_of_app. right. by left.
    + intros (ep' & [Hin | ->%list_elem_of_singleton]%elem_of_app & Hn);
        [left; eauto | by right].
Qed.

Lemma first_occurrences_named h eps :
  Forall (λ nb, first_value nb.2 "name" = Some nb.1) (first_occurrences h eps).
Proof.
  unfold first_occurrences.
  induction eps as [|ep eps IH] using rev_ind; [constructor|].
  rewrite foldl_app. cbn [foldl]. unfold see at 1.
  destruct (name_of h ep) as [n|] eqn:Hn; [|done].
  case_bool_decide; [done|].
  apply Forall_app. split; [done|]. by repeat constructor.
Qed.

Lemma column_name firsts :
  Forall (λ nb, first_value nb.2 "name" = Some nb.1) firsts →
  column "name" firsts = firsts.*1.
Proof.
  unfold column. induction 1 as [|nb firsts Hnb _ IH]; [done|].
  cbn. rewrite Hnb. cbn. by rewrite IH.
Qed.

Lemma first_occurrences_size h eps :
  size (list_to_set (omap (name_of h) eps) : gset string)
  = length (first_occurrences h eps).
Proof.
  rewrite <- (length_fmap fst).
  rewrite <- (size_list_to_set (C:=gset string))
    by apply first_occurrences_NoDup.
  f_equal. apply set_eq. intros n.
  rewrite !elem_of_list_to_set, first_occurrences_names, list_elem_of_omap.
  done.
Qed.

(** Every entry is the bag of the first endpoint that carries its name. *)
Lemma first_occurrences_first h eps i n b :
  first_occurrences h eps !! i = Some (n, b) →
  ∃ k ep,
    eps !! k = Some ep ∧ name_of h ep = Some n ∧ b = bag h ep ∧
    ∀ k' ep', k' < k → eps !! k' = Some ep' → name_of h ep' ≠ Some n.
Proof.
  revert i. induction eps as [|ep eps IH] using rev_ind; intros i.
  { unfold first_occurrences. cbn [foldl]. by rewrite lookup_nil. }
  assert (∀ i, first_occurrences h eps !! i = Some (n, b) →
    ∃ k ep0, (eps ++ [ep]) !! k = Some ep0 ∧ name_of h ep0 = Some n ∧
      b = bag h ep0 ∧
      ∀ k' ep', k' < k → (eps ++ [ep]) !! k' = Some ep' →
        name_of h ep' ≠ Some n) as Hold.
  { intros i' Hi'. destruct (IH i' Hi') as (k & ep0 & Hk & Hn & Hb & Hfirst).
    exists k, ep0. split_and!; [by apply lookup_app_l_Some | done | done |].
    intros k' ep' Hlt Hk'. apply (Hfirst k' ep' Hlt).
    rewrite lookup_app_l in Hk'; [done|].
    apply lookup_lt_Some in Hk. lia. }
  unfold first_occurrences. rewrite foldl_app. cbn [foldl].
  fold (first_occurrences h eps). unfold see.
  destruct (name_of h ep) as [n'|] eqn:Hn'; [|apply Hold].
  case_bool_decide as Hin; [apply Hold|].
  intros [[_ Hi] | [-> [= <- <-]]]%lookup_snoc_Some; [by eapply Hold|].
  exists (length eps), ep. split_and!; [by rewrite list_lookup_middle|done|done|].
  intros k' ep' Hlt Hk' Hname. apply Hin.
  apply first_occurrences_names. exists ep'. split; [|done].
  rewrite lookup_app_l in Hk' by done. by eapply list_elem_of_lookup_2.
Qed.

(** ** LocalGraph: the whole call *)

Lemma loop_inv_init h : loop_inv h [] locals_init.
Proof.
  unfold loop_inv, represents, first_occurrences. cbn.
  split_and!; done.
Qed.

Lemma represents_columns firsts L :
  represents firsts L →
  map_Forall (λ _ col, col ≠ []) (LocalGraph.vertex_properties L).
Proof.
  intros (_ & _ & Hcols) key col Hkey. rewrite Hcols in Hkey.
  destruct (column key firsts); simplify_eq/=. done.
Qed.

Lemma create_spec conns w :
  well_formed (LocalGraph.heap w) conns →
  ∃ L,
    loop_inv (LocalGraph.heap w) conns L ∧
    LocalGraph.create_from_connections_undirected conns w
    = match first_occurrences (LocalGraph.heap w) (endpoints conns) with
      | [] =>
          (LocalGraph.set_graph
             {| igraph.vcount :=
                  length (first_occurrences (LocalGraph.heap w) (endpoints conns));
                igraph.es :=
                  igraph.undirected <$> LocalGraph.vertex_index_connections L;
                igraph.vs :=
                  igraph.recycle
                    (length (first_occurrences (LocalGraph.heap w)
                               (endpoints conns)))
                  <$> LocalGraph.vertex_properties L |}
             (mark_types (endpoints conns) w),
           inl (KeyError "Attribute does not exist"))
      | _ :: _ =>
          (LocalGraph.set_graph
             {| igraph.vcount :=
                  length (first_occurrences (LocalGraph.heap w) (endpoints conns));
                igraph.es :=
                  igraph.undirected <$> LocalGraph.vertex_index_connections L;
                igraph.vs :=
                  <["label" :=
                      (first_occurrences (LocalGraph.heap w)
                         (endpoints conns)).*1]>
                  (igraph.recycle
                     (length (first_occurrences (LocalGraph.heap w)
                                (endpoints conns)))
                   <$> LocalGraph.vertex_properties L) |}
             (mark_types (endpoints conns) w),
           inr tt)
      end.
Proof.
  intros Hwf.
  destruct (loop_spec (LocalGraph.heap w) conns [] locals_init w)
    as (L & Hrun & Hinv); [done | apply loop_inv_init | done |].
  rewrite app_nil_l in Hinv. exists L. split; [done|].
  destruct Hinv as (Hrep & Hvc & Hlen & Hedges).
  set (firsts := first_occurrences (LocalGraph.heap w) (endpoints conns)) in *.
  unfold LocalGraph.create_from_connections_undirected.
  fold locals_init. erewrite bind_ok by exact Hrun.
  erewrite bind_ok by reflexivity.
  erewrite bind_ok
    by (apply set_attributes_spec; by eapply represents_columns).
  erewrite bind_ok by reflexivity.
  cbn [LocalGraph.graph LocalGraph.set_graph].
  change (igraph.es (igraph.Graph_of_edges ?e)) with (igraph.undirected <$> e).
  change (igraph.vs (igraph.Graph_of_edges ?e)) with (∅ : gmap string (list string)).
  rewrite Hvc, (right_id_L ∅ (∪)).
  unfold igraph.vs_get. cbn [igraph.vs].
  destruct Hrep as (_ & _ & Hcols).
  rewrite lookup_fmap, Hcols,
    (column_name firsts (first_occurrences_named _ _)).
  destruct firsts as [|nb firsts'] eqn:Hf; [done|].
  replace (some_if_emits ((nb :: firsts').*1))
    with (Some ((nb :: firsts').*1)) by done.
  cbn [fmap option_fmap option_map].
  rewrite recycle_id by (by rewrite length_fmap).
  unfold igraph.vs_set. cbn [igraph.vcount igraph.es igraph.vs].
  rewrite bool_decide_false by (by intros [? _]).
  by rewrite recycle_id by (by rewrite length_fmap).
Qed.

Lemma example_well_formed :
  well_formed (LocalGraph.heap example_world) example_connections.
Proof.
  unfold well_formed.
  repeat (apply Forall_cons; split; [split|]); try apply Forall_nil.
  all: try (eexists; vm_compute; reflexivity).
  all: apply (bool_decide_unpack _); vm_compute; exact I.
Defined.

Lemma vertex_names_of_columns (firsts : list (string * gmap string (list string))) :
  default [] (igraph.recycle (length firsts) <$> some_if_emits (firsts.*1))
  = firsts.*1.
Proof.
  destruct firsts as [|nb firsts]; [done|].
  cbn [fmap list_fmap some_if_emits option_fmap option_map default].
  apply recycle_id. cbn. by rewrite length_fmap.
Qed.

(** What the call does establish.  From a well-formed connection list it
    leaves in [self.graph] one vertex per distinct endpoint name, named in
    the order the names first occur, and one edge per connection, between
    the vertices that carry the names of its endpoints (an edge is reported
    with its smaller vertex first).  The attribute table
    is built from the bags of the first occurrences alone, so a later
    occurrence of a name adds an edge and changes neither the table nor the
    vertices.  On a non-empty list the call returns normally. *)
Lemma create_keeps_first_occurrences
    (conns : list (LocalGraph.endpoint * LocalGraph.endpoint))
    (w : LocalGraph.world) :
  well_formed (LocalGraph.heap w) conns →
  let h := LocalGraph.heap w in
  let firsts := first_occurrences h (endpoints conns) in
  let run := LocalGraph.create_from_connections_undirected conns w in
  let g := LocalGraph.graph run.1 in
  (conns ≠ [] → run.2 = inr tt) ∧
  igraph.vcount g
  = size (list_to_set (omap (name_of h) (endpoints conns)) : gset string) ∧
  vertex_names g = firsts.*1 ∧
  NoDup (vertex_names g) ∧
  length (igraph.es g) = length conns ∧
  (∀ k pair, conns !! k = Some pair →
     ∃ i j, igraph.es g !! k = Some (i `min` j, i `max` j) ∧
            vertex_names g !! i = name_of h pair.1 ∧
            vertex_names g !! j = name_of h pair.2) ∧
  (∀ key, key ≠ "label" →
     igraph.vs g !! key
     = igraph.recycle (igraph.vcount g) <$> some_if_emits (column key firsts)) ∧
  (∀ i n b, firsts !! i = Some (n, b) →
     ∃ k ep,
       endpoints conns !! k = Some ep ∧ name_of h ep = Some n ∧
       b = bag h ep ∧
       ∀ k' ep', k' < k → endpoints conns !! k' = Some ep' →
                 name_of h ep' ≠ Some n).
Proof.
  intros Hwf. cbv zeta.
  destruct (create_spec conns w Hwf) as (L & Hinv & Hrun).
  destruct Hinv as (Hrep & Hvc & Hlen & Hedges).
  pose proof (first_occurrences_named (LocalGraph.heap w) (endpoints conns))
    as Hnamed.
  pose proof (first_occurrences_NoDup (LocalGraph.heap w) (endpoints conns))
    as Hnodup.
  pose proof (first_occurrences_size (LocalGraph.heap w) (endpoints conns))
    as Hsize.
  pose proof (first_occurrences_first (LocalGraph.heap w) (endpoints conns))
    as Hfirst.
  pose proof (first_occurrences_names (LocalGraph.heap w) (endpoints conns))
    as Hmem.
  remember (LocalGraph.heap w) as h eqn:Hh.
  remember (first_occurrences h (endpoints conns)) as firsts eqn:Hf.
  rewrite Hrun. clear Hrun.
  set (g := LocalGraph.graph _).
  destruct Hrep as (_ & _ & Hcols).
  assert (igraph.vcount g = length firsts) as Hcount.
  { subst g. by destruct firsts. }
  assert (igraph.es g
          = igraph.undirected <$> LocalGraph.vertex_index_connections L) as Hes.
  { subst g. by destruct firsts. }
  assert (∀ key, key ≠ "label" →
            igraph.vs g !! key
            = igraph.recycle (length firsts)
              <$> some_if_emits (column key firsts)) as Hvs.
  { intros key Hkey. subst g.
    destruct firsts; cbn [fst LocalGraph.graph LocalGraph.set_graph igraph.vs];
      rewrite ?lookup_insert_ne by done; by rewrite lookup_fmap, Hcols. }
  assert (vertex_names g = firsts.*1) as Hnames.
  { unfold vertex_names. rewrite Hvs by done.
    rewrite (column_name firsts Hnamed).
    apply vertex_names_of_columns. }
  split_and!.
  - intros Hne.
    destruct firsts as [|nb firsts']; [|done].
    destruct conns as [|pair conns']; [done|].
    apply well_formed_cons in Hwf as (([na Hna] & _) & _ & _).
    assert (na ∈ ([] : list (string * gmap string (list string))).*1) as Hin.
    { apply Hmem. exists pair.1. split; [by left | done]. }
    by apply elem_of_nil in Hin.
  - by rewrite Hcount.
  - done.
  - by rewrite Hnames.
  - by rewrite Hes, length_fmap.
  - intros k pair Hk.
    destruct (Hedges k pair Hk) as (i & j & na & nb & Hk' & Hna & Hnb & Hi & Hj).
    exists i, j. by rewrite Hes, list_lookup_fmap, Hk', Hnames, Hna, Hnb.
  - intros key Hkey. rewrite Hcount. by apply Hvs.
  - done.
Qed.

Example create_keeps_first_occurrences_example :
  let g :=
    LocalGraph.graph
      (LocalGraph.create_from_connections_undirected
         example_connections example_world).1 in
  igraph.vcount g = 2 ∧ vertex_names g = ["A"; "B"] ∧
  igraph.es g = [(0, 1); (0, 1)] ∧
  igraph.vs g !! "colour" = None.
Proof. by vm_compute. Qed.

Lemma column_total key (firsts : list (string * gmap string (list string))) :
  Forall (λ nb, is_Some (first_value nb.2 key)) firsts →
  length (column key firsts) = length firsts ∧
  ∀ i nb, firsts !! i = Some nb →
          column key firsts !! i = first_value nb.2 key.
Proof.
  unfold column. induction 1 as [|nb firsts [v Hv] _ [IHlen IH]].
  - split; [done|]. intros i nb. by rewrite lookup_nil.
  - cbn. rewrite Hv. cbn. split; [by rewrite IHlen|].
    intros [|i] nb'; cbn; [by intros [= <-] | apply IH].
Qed.

(** An attribute that every first occurrence carries, as [name] and [type]
    are, has one slot per vertex: vertex [i] holds the first value the
    attribute has in the first occurrence of the name of vertex [i]. *)
Lemma create_uniform_attribute
    (conns : list (LocalGraph.endpoint * LocalGraph.endpoint))
    (w : LocalGraph.world) (key : string) :
  well_formed (LocalGraph.heap w) conns →
  conns ≠ [] →
  key ≠ "label" →
  Forall (λ nb, is_Some (first_value nb.2 key))
    (first_occurrences (LocalGraph.heap w) (endpoints conns)) →
  ∃ col,
    igraph.vs
      (LocalGraph.graph
         (LocalGraph.create_from_connections_undirected conns w).1) !! key
    = Some col ∧
    ∀ i nb,
      first_occurrences (LocalGraph.heap w) (endpoints conns) !! i = Some nb →
      col !! i = first_value nb.2 key.
Proof.
  intros Hwf Hne Hkey Hall.
  destruct (create_keeps_first_occurrences conns w Hwf)
    as (_ & Hcount & Hnames & _ & _ & _ & Hvs & _).
  rewrite first_occurrences_size in Hcount.
  destruct (column_total key _ Hall) as [Hlen Hcol].
  exists (column key
            (first_occurrences (LocalGraph.heap w) (endpoints conns))).
  split; [|done]. rewrite (Hvs key Hkey), Hcount.
  destruct conns as [|pair conns']; [done|].
  apply well_formed_cons in Hwf as (([na Hna] & _) & _ & _).
  assert (na ∈ (first_occurrences (LocalGraph.heap w)
                  (endpoints (pair :: conns'))).*1) as Hin.
  { apply first_occurrences_names. exists pair.1. split; [by left | done]. }
  destruct (first_occurrences _ _) as [|nb firsts'] eqn:Hf;
    [by apply elem_of_nil in Hin|].
  destruct (column key (nb :: firsts')) as [|x col'] eqn:Hc; [done|].
  cbn [some_if_emits fmap option_fmap option_map].
  by rewrite recycle_id.
Qed.

(** C2: the bag stored for a name is not always the bag of its first
    occurrence.  When "A" has no colour and "B" has one, the colour column
    the loop builds has a single slot for the two vertices; it is slot 0,
    the slot of vertex "A", and it holds the colour of "B".  Assigned to the
    graph, the column gives "A" the colour "red". *)
Theorem short_column_misplaces_value :
  let run :=
    LocalGraph.create_from_connections_undirected
      mixed_connections mixed_world in
  let g := LocalGraph.graph run.1 in
  run.2 = inr tt ∧
  vertex_names g = ["A"; "B"] ∧
  first_occurrences (LocalGraph.heap mixed_world) (endpoints mixed_connections)
  = [("A", {[ "name" := ["A"]; "type" := ["X"] ]});
     ("B", {[ "name" := ["B"]; "colour" := ["red"]; "type" := ["Y"] ]})] ∧
  (∃ L, loop_locals mixed_connections mixed_world = inr L ∧
        LocalGraph.vertices_so_far L = 2 ∧
        LocalGraph.vertex_properties L !! "colour" = Some ["red"]) ∧
  igraph.vs g !! "colour" = Some ["red"; "red"].
Proof.
  cbv zeta. split_and!; try by vm_compute.
  eexists. split_and!; [by vm_compute | by vm_compute | by vm_compute].
Qed.

Lemma endpoint_body_state ep acc w :
  (LocalGraph.endpoint_body ep acc w).1 = LocalGraph.set_type ep w.
Proof.
  destruct acc as [L indices]. unfold LocalGraph.endpoint_body.
  unfold mbind, M_bind, mret, M_ret, raise, modify_state, get_state.
  cbn beta iota. repeat case_match; simplify_eq/=; done.
Qed.

(** C10: the call changes the dictionaries of the caller in place.  The
    step for an endpoint sets the key ['type'] of its dictionary to the
    one-element list with its label, whatever was there.  After the call,
    the dictionary an endpoint refers to is the one it was before with
    the key ['type'] set to a one-element list: the label of the last
    endpoint that shares the dictionary, which is the endpoint's own label
    unless the same dictionary is passed under two labels.  The other keys
    and the other dictionaries are as they were, and a dictionary whose
    ['type'] entry was not that list already has changed. *)
Theorem create_marks_types
    (conns : list (LocalGraph.endpoint * LocalGraph.endpoint))
    (w : LocalGraph.world) :
  well_formed (LocalGraph.heap w) conns →
  let h := LocalGraph.heap w in
  let h' :=
    LocalGraph.heap
      (LocalGraph.create_from_connections_undirected conns w).1 in
  (∀ ep acc w0,
     LocalGraph.heap (LocalGraph.endpoint_body ep acc w0).1
       (LocalGraph.properties ep)
     = <["type" := [LocalGraph.type ep]]>
         (LocalGraph.heap w0 (LocalGraph.properties ep))) ∧
  (∀ ep, ep ∈ endpoints conns →
     ∃ ep', ep' ∈ endpoints conns ∧
       LocalGraph.properties ep' = LocalGraph.properties ep ∧
       h' (LocalGraph.properties ep)
       = <["type" := [LocalGraph.type ep']]> (h (LocalGraph.properties ep))) ∧
  (∀ ep, ep ∈ endpoints conns →
     (∀ ep', ep' ∈ endpoints conns →
        LocalGraph.properties ep' = LocalGraph.properties ep →
        LocalGraph.type ep' = LocalGraph.type ep) →
     h' (LocalGraph.properties ep)
     = <["type" := [LocalGraph.type ep]]> (h (LocalGraph.properties ep)) ∧
     (h (LocalGraph.properties ep) !! "type" ≠ Some [LocalGraph.type ep] →
      h' (LocalGraph.properties ep) ≠ h (LocalGraph.properties ep))) ∧
  (∀ l, (∀ ep, ep ∈ endpoints conns → LocalGraph.properties ep ≠ l) →
     h' l = h l).
Proof.
  intros Hwf h h'.
  destruct (create_spec conns w Hwf) as (L & _ & Hrun).
  assert (h' = LocalGraph.heap (mark_types (endpoints conns) w)) as Hh'.
  { subst h'. rewrite Hrun. by destruct (first_occurrences _ _). }
  clearbody h'. subst h'.
  assert (∀ ep, ep ∈ endpoints conns →
     ∃ ep', ep' ∈ endpoints conns ∧
       LocalGraph.properties ep' = LocalGraph.properties ep ∧
       LocalGraph.heap (mark_types (endpoints conns) w)
         (LocalGraph.properties ep)
       = <["type" := [LocalGraph.type ep']]> (h (LocalGraph.properties ep)))
    as Hlast.
  { intros ep Hep.
    destruct (heap_mark_types (endpoints conns) w (LocalGraph.properties ep))
      as [[Hno _] | (ep' & Hin & Hl & Hheap)].
    - by destruct (Hno ep Hep).
    - exists ep'. split_and!; [done | done |].
      rewrite Hheap. unfold bag. by rewrite Hl. }
  split_and!; [| done | |].
  - intros ep acc w0. rewrite endpoint_body_state. apply heap_set_type_self.
  - intros ep Hep Hsame.
    destruct (Hlast ep Hep) as (ep' & Hin & Hl & Heq).
    rewrite (Hsame ep' Hin Hl) in Heq. split; [done|].
    intros Hold Hunch. apply Hold. rewrite <- Hunch, Heq.
    apply lookup_insert_eq.
  - intros l Hl.
    destruct (heap_mark_types (endpoints conns) w l)
      as [[_ Hheap] | (ep' & Hin & Hl' & _)]; [done|].
    by destruct (Hl ep' Hin).
Qed.

Lemma create_marks_types_witness :
  LocalGraph.heap
    (LocalGraph.create_from_connections_undirected
       example_connections example_world).1 2
  = {[ "name" := ["A"]; "colour" := ["blue"]; "type" := ["X"] ]}.
Proof.
  pose proof (create_marks_types example_connections example_world
                example_well_formed) as (_ & _ & Hown & _).
  destruct (Hown {| LocalGraph.properties := 2; LocalGraph.type := "X" |})
    as [Heq _].
  - do 3 right. left.
  - intros ep' Hin Hl.
    repeat (apply elem_of_cons in Hin as [-> | Hin]; [by vm_compute in Hl |-* |]).
    by apply elem_of_nil in Hin.
  - cbn [LocalGraph.properties LocalGraph.type] in Heq. rewrite Heq.
    by vm_compute.
Defined.

(** ** LocalGraph.find_shortest_paths *)

Lemma vertex_id_absent g n :
  n ∉ vertex_names g →
  igraph.vertex_id g n = inl (ValueError ("no such vertex: " +:+ py_repr n)).
Proof.
  intros Hn. unfold igraph.vertex_id. fold (vertex_names g).
  destruct (list_find _ _) as [[i x]|] eqn:Hfind; [|done].
  apply list_find_Some in Hfind as (Hi & -> & _).
  destruct Hn. by eapply list_elem_of_lookup_2.
Qed.

Lemma vertex_id_present g n :
  n ∈ vertex_names g → ∃ i, igraph.vertex_id g n = inr i.
Proof.
  intros Hn. unfold igraph.vertex_id. fold (vertex_names g).
  destruct (list_find _ _) as [[i x]|] eqn:Hfind; [by eexists|].
  apply list_find_None in Hfind.
  by destruct (proj1 (Forall_forall _ _) Hfind n Hn).
Qed.

(** C7, as stated, fails: on the graph built from the example, asking for
    the paths to a name that no vertex carries raises the engine's
    [ValueError]; no empty result is returned. *)
Lemma absent_name_raises :
  ¬ (∀ conns w n1 n2,
       well_formed (LocalGraph.heap w) conns →
       let w' := (LocalGraph.create_from_connections_undirected conns w).1 in
       n1 ∉ vertex_names (LocalGraph.graph w') ∨
       n2 ∉ vertex_names (LocalGraph.graph w') →
       (LocalGraph.find_shortest_paths n1 n2 w').2 = inr []).
Proof.
  intros Hclaim.
  pose proof (Hclaim example_connections example_world "A" "Z"
                example_well_formed) as Hempty.
  cbv zeta in Hempty.
  assert ("Z" ∉ vertex_names (LocalGraph.graph
            (LocalGraph.create_from_connections_undirected
               example_connections example_world).1)) as Habsent.
  { apply (bool_decide_unpack _). vm_compute. exact I. }
  specialize (Hempty (or_intror Habsent)).
  vm_compute in Hempty. discriminate.
Qed.

(** C7, amended: the method makes no check of its own and returns what the
    engine returns, without changing anything; when one of the two names is
    carried by no vertex, that is the engine's [ValueError] for the first
    absent name: for [name1] when no vertex carries it, and for [name2]
    otherwise. *)
Theorem find_shortest_paths_absent (w : LocalGraph.world) (n1 n2 : string) :
  n1 ∉ vertex_names (LocalGraph.graph w) ∨
  n2 ∉ vertex_names (LocalGraph.graph w) →
  LocalGraph.find_shortest_paths n1 n2 w
  = (w,
     inl (ValueError
            ("no such vertex: " +:+
             py_repr (if bool_decide (n1 ∈ vertex_names (LocalGraph.graph w))
                      then n2 else n1)))).
Proof.
  intros Habsent. unfold LocalGraph.find_shortest_paths,
    igraph.get_all_shortest_paths.
  case_bool_decide as Hin.
  - destruct Habsent as [? | Hn2]; [done|].
    destruct (vertex_id_present _ _ Hin) as [i ->].
    by rewrite (vertex_id_absent _ _ Hn2).
  - by rewrite (vertex_id_absent _ _ Hin).
Qed.

Lemma find_shortest_paths_absent_witness :
  LocalGraph.find_shortest_paths "A" "Z"
    (LocalGraph.create_from_connections_undirected
       example_connections example_world).1
  = ((LocalGraph.create_from_connections_undirected
        example_connections example_world).1,
     inl (ValueError "no such vertex: 'Z'")).
Proof.
  rewrite (find_shortest_paths_absent
             (LocalGraph.create_from_connections_undirected
                example_connections example_world).1 "A" "Z").
  - by f_equal.
  - right. apply (bool_decide_unpack _). vm_compute. exact I.
Defined.

(** * Further properties *)

(** ** Property._validate: every outcome *)

Section validate.
Context `{RegexEngine} {St : Type}.
Implicit Types (T : PropertyType.t) (s : St).

Lemma check_value_state T val s : (Property.check_value T val s).1 = s.
Proof.
  unfold Property.check_value. repeat case_match; done.
Qed.

Lemma check_value_ok_iff T val s :
  (Property.check_value T val s).2 = inr tt ↔ passes T val.
Proof.
  unfold Property.check_value, passes, fully_matches.
  destruct (re_compile _) as [p|]; [|split; [done | by intros (? & _ & ?)]].
  destruct val as [| |x|]; try (split; [done | by intros (? & ? & _)]).
  destruct (pattern_fullmatch p x) eqn:Hp.
  - split; [eauto | done].
  - split; [done|]. intros (y & [= <-] & Hy). congruence.
Qed.

Lemma check_values_ok_iff T (l : list pyval) s :
  (for_each l (λ val _, Property.check_value T val) tt s).2 = inr tt
  ↔ Forall (passes T) l.
Proof.
  induction l as [|val l IH]; [by split|].
  cbn [for_each]. unfold mbind, M_bind.
  pose proof (check_value_state T val s) as Hs.
  pose proof (check_value_ok_iff T val s) as Hv.
  destruct (Property.check_value T val s) as [s' [e|[]]]; simpl in *; subst s'.
  - split; [done|]. intros [Hval _]%Forall_cons. by apply Hv in Hval.
  - rewrite IH. split; [|by intros [_ ?]%Forall_cons].
    intros Hl. apply Forall_cons. split; [by apply Hv | done].
Qed.

Lemma check_values_state T (l : list pyval) s :
  (for_each l (λ val _, Property.check_value T val) tt s).1 = s.
Proof.
  induction l as [|val l IH]; [done|].
  cbn [for_each]. unfold mbind, M_bind.
  pose proof (check_value_state T val s) as Hs.
  destruct (Property.check_value T val s) as [s' [e|[]]]; simpl in *; by subst.
Qed.

Lemma as_list_coerced (v : pyval) :
  Property.as_list (if isinstance_list v then v else PyList [v])
  = Property.as_list v.
Proof. by destruct v. Qed.

(** [_validate] lets the keywords through exactly when [type] and [values]
    are both given, the values ([values] itself when it is not a list) are
    as many as [n_values], and each of them is a string that fully matches
    the pattern.  With no value to look at the pattern is never compiled. *)
Theorem validate_succeeds_iff (kw : Property.kwargs) s :
  (Property._validate kw s).2 = inr tt ↔
  ∃ T v,
    Property.kw_type kw = Some T ∧ Property.kw_values kw = Some v ∧
    Z.of_nat (length (Property.as_list v)) = PropertyType.n_values T ∧
    Forall (passes T) (Property.as_list v).
Proof.
  destruct kw as [[T|] [v|]]; unfold Property._validate; msimpl;
    try (split; [done | by intros (? & ? & ? & ? & _)]).
  rewrite as_list_coerced. case_bool_decide as Hlen; simpl.
  - split; [done|]. intros (T' & v' & [= <-] & [= <-] & Hn & _).
    by destruct Hlen.
  - rewrite check_values_ok_iff. split.
    + intros Hall. exists T, v. by split_and!.
    + by intros (T' & v' & [= <-] & [= <-] & _ & Hall).
Qed.

(** [_validate] only looks: whatever it is given and whatever it answers,
    nothing of the state has changed when it returns or raises. *)
Lemma validate_state (kw : Property.kwargs) s :
  (Property._validate kw s).1 = s.
Proof.
  destruct kw as [[T|] [v|]]; unfold Property._validate; msimpl; try done.
  case_bool_decide; [done|]. apply check_values_state.
Qed.

(** The values are checked from left to right and the first one that does
    not match is the one reported: what follows it is not looked at, not
    even to see whether it is a string. *)
Theorem validate_reports_first_mismatch T (pre : list string) (x : string)
    (post : list pyval) s :
  Z.of_nat (length pre + 1 + length post) = PropertyType.n_values T →
  regex_compiles (PropertyType.allowed_regex T) = true →
  Forall (λ y, fully_matches T y = true) pre →
  fully_matches T x = false →
  Property._validate
    {| Property.kw_type := Some T;
       Property.kw_values := Some (PyList ((PyStr <$> pre) ++ PyStr x :: post)) |}
    s
  = (s, inl (ValueError (Property.regex_msg x T))).
Proof.
  intros Hlen Hc Hpre Hx. unfold Property._validate. msimpl.
  rewrite bool_decide_false; cycle 1.
  { intros Hne. apply Hne. rewrite length_app, length_fmap. simpl. lia. }
  clear Hlen. induction Hpre as [|y pre Hy _ IH]; simpl.
  - erewrite bind_raise; [done|].
    unfold Property.check_value, fully_matches, regex_compiles in *.
    destruct (re_compile _); [|done]. by rewrite Hx.
  - erewrite bind_ok; [exact IH|].
    unfold Property.check_value, fully_matches in *.
    destruct (re_compile _); [|done]. by rewrite Hy.
Qed.

(** A type whose pattern does not compile makes validation fail with
    [re.error] as soon as a property of the type is validated with at least
    one value and the right number of them: the error is not caught and
    reaches the caller. *)
Theorem validate_bad_pattern_raises T (v : pyval) s :
  regex_compiles (PropertyType.allowed_regex T) = false →
  Z.of_nat (length (Property.as_list v)) = PropertyType.n_values T →
  Property.as_list v ≠ [] →
  Property._validate
    {| Property.kw_type := Some T; Property.kw_values := Some v |} s
  = (s, inl re_error).
Proof.
  intros Hc Hlen Hne. unfold Property._validate. msimpl.
  rewrite as_list_coerced, bool_decide_false by (by intros []).
  destruct (Property.as_list v) as [|val l]; [done|]. simpl.
  erewrite bind_raise; [done|].
  unfold Property.check_value, regex_compiles in *.
  by destruct (re_compile _).
Qed.

End validate.

Lemma validate_reports_first_mismatch_witness :
  Property._validate (H:=reference_engine)
    {| Property.kw_type := Some serial_number;
       Property.kw_values := Some (PyList [PyStr "12"; PyStr "x1"]) |} tt
  = (tt, inl (ValueError (Property.regex_msg "x1" serial_number))).
Proof.
  apply (validate_reports_first_mismatch (H:=reference_engine)
           serial_number ["12"] "x1" [] tt); try reflexivity.
  by repeat constructor.
Defined.

Lemma validate_bad_pattern_raises_witness :
  Property._validate (H:=reference_engine)
    {| Property.kw_type := Some broken_pattern;
       Property.kw_values := Some (PyStr "a") |} tt
  = (tt, inl re_error).
Proof.
  apply (validate_bad_pattern_raises (H:=reference_engine)
           broken_pattern (PyStr "a") tt); [reflexivity | reflexivity | done].
Defined.

(** ** PropertyType.get_count: what the filters can do *)

Lemma get_count_value (rel : string) (fs : list (string * string))
    (s : g_state) :
  (PropertyType.get_count rel (Some (tuple2 <$> fs)) s).2
  = inr (count_disjunction (db s) rel (List.filter constrains fs)) ∧
  db (PropertyType.get_count rel (Some (tuple2 <$> fs)) s).1 = db s ∧
  length (submitted (PropertyType.get_count rel (Some (tuple2 <$> fs)) s).1)
  = S (length (submitted s)).
Proof.
  unfold PropertyType.get_count.
  set (base := [Gremlin.has "active" (Gremlin.eq (Gremlin.VBool true));
                Gremlin.has "category"
                  (Gremlin.eq (Gremlin.VStr PropertyType.category))]).
  destruct (List.filter constrains fs) as [|f fs'] eqn:Hfs.
  - erewrite bind_ok; cycle 1.
    { erewrite bind_ok by apply for_each_filter_body. rewrite Hfs.
      cbn [app fmap list_fmap length]. by rewrite bool_decide_false by lia. }
    unfold count_next, count_disjunction, Gremlin.V_count. cbn [fst snd db submitted].
    split_and!; [|done|rewrite length_app; simpl; lia]. do 2 f_equal.
    subst base. rewrite base_traversal. f_equal. apply filter_ext_bool.
    intros v. by rewrite bool_decide_true, andb_true_r.
  - erewrite bind_ok; cycle 1.
    { erewrite bind_ok by apply for_each_filter_body. rewrite Hfs.
      cbn [app]. by rewrite bool_decide_true by (simpl; lia). }
    unfold count_next, count_disjunction, Gremlin.V_count. cbn [fst snd db submitted].
    split_and!; [|done|rewrite length_app; simpl; lia]. do 2 f_equal.
    subst base. rewrite run_app, base_traversal, run_or, filter_filter_andb.
    f_equal. apply filter_ext_bool. intros v. f_equal.
    rewrite bool_decide_false by done. cbn [orb].
    rewrite <- Hfs, existsb_fmap.
    apply existsb_ext_Forall. intros x Hx. by apply emits_and_of.
Qed.

Lemma count_disjunction_nil G rel : count_disjunction G rel [] = total_count G.
Proof.
  unfold count_disjunction, total_count. do 2 f_equal.
  apply filter_ext_bool. intros v. by rewrite andb_true_r.
Qed.

Lemma filter_length_le {A} (p q : A → bool) (l : list A) :
  (∀ x, p x = true → q x = true) →
  (length (List.filter p l) ≤ length (List.filter q l))%nat.
Proof.
  intros Hpq. induction l as [|x l IH]; [done|]. simpl.
  destruct (p x) eqn:Hp.
  - rewrite (Hpq x Hp). simpl. lia.
  - destruct (q x); simpl; lia.
Qed.

Lemma filter_constrains_none (fs : list (string * string)) :
  Forall (λ f, f = ("", "")) fs → List.filter constrains fs = [].
Proof.
  induction 1 as [|f fs -> _ IH]; [done|]. simpl. by rewrite IH.
Qed.

(** Passing [None], the empty list, or filters whose elements are all
    empty comes to the same: one traversal is sent and every active property
    type is counted. *)
Theorem get_count_unfiltered (rel : string) (fs : list (string * string))
    (s : g_state) :
  Forall (λ f, f = ("", "")) fs →
  PropertyType.get_count rel None s
  = ({| db := db s;
        submitted := submitted s ++
          [[Gremlin.has "active" (Gremlin.eq (Gremlin.VBool true));
            Gremlin.has "category"
              (Gremlin.eq (Gremlin.VStr PropertyType.category))]] |},
     inr (total_count (db s))) ∧
  PropertyType.get_count rel (Some (tuple2 <$> fs)) s
  = PropertyType.get_count rel None s.
Proof.
  intros Hfs.
  assert (PropertyType.get_count rel None s
          = ({| db := db s;
                submitted := submitted s ++
                  [[Gremlin.has "active" (Gremlin.eq (Gremlin.VBool true));
                    Gremlin.has "category"
                      (Gremlin.eq (Gremlin.VStr PropertyType.category))]] |},
             inr (total_count (db s)))) as HNone.
  { unfold PropertyType.get_count. erewrite bind_ok by reflexivity.
    unfold count_next, total_count, Gremlin.V_count.
    by rewrite base_traversal. }
  split; [done|]. rewrite HNone.
  unfold PropertyType.get_count.
  erewrite bind_ok; cycle 1.
  { erewrite bind_ok by apply for_each_filter_body.
    rewrite (filter_constrains_none fs Hfs).
    cbn [app fmap list_fmap length]. by rewrite bool_decide_false by lia. }
  unfold count_next, total_count, Gremlin.V_count.
  by rewrite base_traversal.
Qed.

Lemma get_count_unfiltered_witness :
  PropertyType.get_count "rel_property_allowed_type"
    (Some [[""; ""]; [""; ""]]) example_store
  = PropertyType.get_count "rel_property_allowed_type" None example_store.
Proof.
  apply (get_count_unfiltered "rel_property_allowed_type"
           [("", ""); ("", "")] example_store).
  by repeat constructor.
Defined.

(** Filters only narrow: whatever the filters, the count is at least 0 and
    at most the count of all active property types, and the store is left
    as it was. *)
Theorem get_count_at_most_total (rel : string) (fs : list (string * string))
    (s : g_state) :
  ∃ n,
    (PropertyType.get_count rel (Some (tuple2 <$> fs)) s).2 = inr n ∧
    (0 ≤ n ≤ total_count (db s))%Z ∧
    db (PropertyType.get_count rel (Some (tuple2 <$> fs)) s).1 = db s.
Proof.
  destruct (get_count_value rel fs s) as (Hv & Hdb & _).
  eexists. split_and!; [exact Hv | | | done].
  - unfold count_disjunction. lia.
  - unfold count_disjunction, total_count. apply inj_le, filter_length_le.
    by intros v [? _]%andb_true_iff.
Qed.

(** The filters are alternatives: their order does not change the count. *)
Theorem get_count_permutation (rel : string) (fs fs' : list (string * string))
    (s : g_state) :
  fs ≡ₚ fs' →
  (PropertyType.get_count rel (Some (tuple2 <$> fs)) s).2
  = (PropertyType.get_count rel (Some (tuple2 <$> fs')) s).2.
Proof.
  intros Hperm.
  destruct (get_count_value rel fs s) as (-> & _).
  destruct (get_count_value rel fs' s) as (-> & _).
  assert (List.filter constrains fs ≡ₚ List.filter constrains fs') as Hp.
  { clear s. induction Hperm as [|x l l' _ IH|x y l|l l' l'' _ IH1 _ IH2];
      simpl; [done| | |by etrans].
    - destruct (constrains x); [by constructor | done].
    - destruct (constrains x), (constrains y); try done. apply perm_swap. }
  unfold count_disjunction. do 3 f_equal.
  apply filter_ext_bool. intros v. f_equal. f_equal.
  - apply bool_decide_ext. split; intros Hnil; rewrite Hnil in Hp.
    + symmetry. by apply Permutation_nil_l.
    + by apply Permutation_nil_r.
  - generalize (filter_matches (db s) rel v) as p. intros p.
    induction Hp as [|x l l' _ IH|x y l|l l' l'' _ IH1 _ IH2]; simpl;
      [done | by rewrite IH | | by etrans].
    destruct (p x), (p y); done.
Qed.

Lemma get_count_permutation_witness :
  (PropertyType.get_count "rel_property_allowed_type"
     (Some [["Volt"; ""]; ["Curr"; "antenna"]]) example_store).2
  = (PropertyType.get_count "rel_property_allowed_type"
       (Some [["Curr"; "antenna"]; ["Volt"; ""]]) example_store).2.
Proof.
  apply (get_count_permutation "rel_property_allowed_type"
           [("Volt", ""); ("Curr", "antenna")]
           [("Curr", "antenna"); ("Volt", "")] example_store).
  apply perm_swap.
Defined.

(** Once a filter constrains, one more filter can only add matches.  (From
    no constraining filter at all it is the other way round: the first one
    narrows the count of everything.) *)
Theorem get_count_more_filters (rel : string) (f : string * string)
    (fs : list (string * string)) (s : g_state) :
  Exists (λ g, constrains g = true) fs →
  ∃ n m,
    (PropertyType.get_count rel (Some (tuple2 <$> fs)) s).2 = inr n ∧
    (PropertyType.get_count rel (Some (tuple2 <$> f :: fs)) s).2 = inr m ∧
    (n ≤ m)%Z.
Proof.
  intros Hex.
  assert (List.filter constrains fs ≠ []) as Hne.
  { induction Hex as [g fs Hg | g fs _ IH]; simpl.
    - by rewrite Hg.
    - by destruct (constrains g). }
  destruct (get_count_value rel fs s) as (Hn & _).
  destruct (get_count_value rel (f :: fs) s) as (Hm & _).
  eexists _, _. split_and!; [exact Hn | exact Hm |].
  unfold count_disjunction. apply inj_le, filter_length_le. intros v.
  rewrite !andb_true_iff. intros [Ha Hm']. split; [done|].
  rewrite bool_decide_false in Hm' by done. simpl in *.
  destruct (constrains f); simpl; [|by rewrite bool_decide_false by done].
  rewrite Hm'. by rewrite orb_true_r.
Qed.

Lemma get_count_more_filters_witness :
  ∃ n m,
    (PropertyType.get_count "rel_property_allowed_type"
       (Some [["Volt"; ""]]) example_store).2 = inr n ∧
    (PropertyType.get_count "rel_property_allowed_type"
       (Some [["Curr"; ""]; ["Volt"; ""]]) example_store).2 = inr m ∧
    (n ≤ m)%Z.
Proof.
  apply (get_count_more_filters "rel_property_allowed_type"
           ("Curr", "") [("Volt", "")] example_store).
  by left.
Defined.

(** ** LocalGraph: helpers *)

Lemma see_ext h h' firsts ep :
  bag h ep = bag h' ep → see h firsts ep = see h' firsts ep.
Proof. intros Hb. unfold see, name_of. by rewrite Hb. Qed.

Lemma first_occurrences_ext h h' eps :
  (∀ ep, bag h ep = bag h' ep) →
  first_occurrences h eps = first_occurrences h' eps.
Proof.
  intros Hb. unfold first_occurrences. generalize (@nil (string * gmap string (list string))).
  induction eps as [|ep eps IH]; intros acc; [done|].
  simpl. by rewrite (see_ext h h' acc ep (Hb ep)), IH.
Qed.

Lemma well_formed_ext h h' conns :
  (∀ ep, bag h ep = bag h' ep) → well_formed h conns → well_formed h' conns.
Proof.
  intros Hb Hwf. unfold well_formed, name_of in *.
  eapply Forall_impl; [exact Hwf|].
  intros ep. cbv beta. by rewrite (Hb ep).
Qed.

Lemma create_graph conns w :
  well_formed (LocalGraph.heap w) conns →
  ∃ L,
    loop_inv (LocalGraph.heap w) conns L ∧
    LocalGraph.graph (LocalGraph.create_from_connections_undirected conns w).1
    = graph_of (first_occurrences (LocalGraph.heap w) (endpoints conns)) L ∧
    LocalGraph.heap (LocalGraph.create_from_connections_undirected conns w).1
    = LocalGraph.heap (mark_types (endpoints conns) w) ∧
    (LocalGraph.create_from_connections_undirected conns w).2
    = match first_occurrences (LocalGraph.heap w) (endpoints conns) with
      | [] => inl (KeyError "Attribute does not exist")
      | _ :: _ => inr tt
      end.
Proof.
  intros Hwf. destruct (create_spec conns w Hwf) as (L & Hinv & Hrun).
  exists L. split; [done|]. rewrite Hrun. unfold graph_of.
  by destruct (first_occurrences _ _).
Qed.

(** The locals at the end of the loop are determined by the first
    occurrences and by the names of the endpoints. *)
Lemma loop_inv_unique h conns L h' conns' L' :
  loop_inv h conns L → loop_inv h' conns' L' →
  first_occurrences h (endpoints conns)
  = first_occurrences h' (endpoints conns') →
  pair_names h conns = pair_names h' conns' →
  L = L'.
Proof.
  intros ((Hvsf & Hind & Hcols) & _ & Hlen & Hedges)
         ((Hvsf' & Hind' & Hcols') & _ & Hlen' & Hedges') Hfirsts Hnames.
  pose proof (first_occurrences_NoDup h (endpoints conns)) as Hnodup.
  rewrite <- Hfirsts in *.
  set (firsts := first_occurrences h (endpoints conns)) in *.
  assert (length conns = length conns') as Hlc.
  { apply (f_equal length) in Hnames. unfold pair_names in Hnames.
    by rewrite !length_fmap in Hnames. }
  destruct L as [vp n2i vic vsf], L' as [vp' n2i' vic' vsf'].
  cbn [LocalGraph.vertex_properties LocalGraph.vertex_name_to_ind
       LocalGraph.vertex_index_connections LocalGraph.vertices_so_far] in *.
  f_equal.
  - apply map_eq. intros key. by rewrite Hcols, Hcols'.
  - apply map_eq. intros n. apply option_eq. intros i.
    by rewrite Hind, Hind'.
  - apply list_eq. intros k.
    destruct (conns !! k) as [pair|] eqn:Hk.
    + assert (is_Some (conns' !! k)) as [pair' Hk'].
      { apply lookup_lt_is_Some. rewrite <- Hlc. by eapply lookup_lt_Some. }
      destruct (Hedges k pair Hk)
        as (i & j & na & nb & -> & Hna & Hnb & Hi & Hj).
      destruct (Hedges' k pair' Hk')
        as (i' & j' & na' & nb' & -> & Hna' & Hnb' & Hi' & Hj').
      assert (pair_names h conns !! k = Some (Some na, Some nb)) as Hpn.
      { unfold pair_names. by rewrite list_lookup_fmap, Hk, <- Hna, <- Hnb. }
      rewrite Hnames in Hpn. unfold pair_names in Hpn.
      rewrite list_lookup_fmap, Hk' in Hpn. simpl in Hpn.
      rewrite Hna', Hnb' in Hpn. injection Hpn as -> ->.
      by rewrite (NoDup_lookup _ _ _ _ Hnodup Hi Hi'),
                 (NoDup_lookup _ _ _ _ Hnodup Hj Hj').
    + apply lookup_ge_None in Hk.
      rewrite (proj2 (lookup_ge_None vic k)) by lia.
      by rewrite (proj2 (lookup_ge_None vic' k)) by lia.
  - by rewrite Hvsf, Hvsf'.
Qed.

(** ** LocalGraph.create_from_connections_undirected: the graph *)

Lemma example_later_well_formed :
  well_formed (LocalGraph.heap example_world_later) example_connections.
Proof.
  unfold well_formed.
  repeat (apply Forall_cons; split; [split|]); try apply Forall_nil.
  all: try (eexists; vm_compute; reflexivity).
  all: apply (bool_decide_unpack _); vm_compute; exact I.
Defined.

(** The vertices are the distinct names of the endpoints: as many vertices
    as distinct names, no name on two vertices, every endpoint's name on a
    vertex and every vertex name the name of an endpoint. *)
Theorem create_vertices_by_name
    (conns : list (LocalGraph.endpoint * LocalGraph.endpoint))
    (w : LocalGraph.world) :
  well_formed (LocalGraph.heap w) conns →
  let h := LocalGraph.heap w in
  let g :=
    LocalGraph.graph
      (LocalGraph.create_from_connections_undirected conns w).1 in
  igraph.vcount g
  = size (list_to_set (omap (name_of h) (endpoints conns)) : gset string) ∧
  length (vertex_names g) = igraph.vcount g ∧
  NoDup (vertex_names g) ∧
  ∀ n, n ∈ vertex_names g ↔
       ∃ ep, ep ∈ endpoints conns ∧ name_of h ep = Some n.
Proof.
  intros Hwf. cbv zeta.
  destruct (create_keeps_first_occurrences conns w Hwf)
    as (_ & Hcount & Hnames & Hnodup & _).
  split_and!; [done | | done |].
  - by rewrite Hcount, Hnames, length_fmap, first_occurrences_size.
  - intros n. rewrite Hnames. apply first_occurrences_names.
Qed.

Lemma create_vertices_by_name_witness :
  igraph.vcount
    (LocalGraph.graph
       (LocalGraph.create_from_connections_undirected
          example_connections example_world).1)
  = size (list_to_set
            (omap (name_of (LocalGraph.heap example_world))
               (endpoints example_connections)) : gset string).
Proof.
  apply (create_vertices_by_name example_connections example_world
           example_well_formed).
Defined.

(** The edges are the connections, in order: edge [k] joins the vertices
    that carry the names of the two endpoints of connection [k].  The graph
    is undirected and reports the edge with its smaller vertex first, so the
    first vertex of the edge carries the name of either endpoint and the
    second the name of the other; both are vertices of the graph, and the
    edge is a loop exactly when the two endpoints have the same name. *)
Theorem create_edges_join_names
    (conns : list (LocalGraph.endpoint * LocalGraph.endpoint))
    (w : LocalGraph.world) :
  well_formed (LocalGraph.heap w) conns →
  let h := LocalGraph.heap w in
  let g :=
    LocalGraph.graph
      (LocalGraph.create_from_connections_undirected conns w).1 in
  length (igraph.es g) = length conns ∧
  ∀ k pair, conns !! k = Some pair →
    ∃ a b : nat,
      igraph.es g !! k = Some (a, b) ∧
      (a ≤ b)%nat ∧ b < igraph.vcount g ∧
      ((vertex_names g !! a = name_of h pair.1 ∧
        vertex_names g !! b = name_of h pair.2) ∨
       (vertex_names g !! a = name_of h pair.2 ∧
        vertex_names g !! b = name_of h pair.1)) ∧
      (a = b ↔ name_of h pair.1 = name_of h pair.2).
Proof.
  intros Hwf. cbv zeta.
  destruct (create_keeps_first_occurrences conns w Hwf)
    as (_ & Hcount & Hnames & Hnodup & Hlen & Hedges & _).
  split; [done|]. intros k pair Hk.
  destruct (Hedges k pair Hk) as (i & j & Hes & Hi & Hj).
  assert (length (vertex_names
            (LocalGraph.graph
               (LocalGraph.create_from_connections_undirected conns w).1))
          = igraph.vcount
              (LocalGraph.graph
                 (LocalGraph.create_from_connections_undirected conns w).1))
    as Hvn.
  { by rewrite Hcount, Hnames, length_fmap, first_occurrences_size. }
  pose proof Hwf as Hwf'. unfold well_formed in Hwf'.
  rewrite Forall_forall in Hwf'.
  assert (pair.1 ∈ endpoints conns ∧ pair.2 ∈ endpoints conns) as [Hin1 Hin2].
  { unfold endpoints. split; apply list_elem_of_In, in_flat_map;
      exists pair; (split; [by eapply list_elem_of_In, list_elem_of_lookup_2|]);
      simpl; auto. }
  destruct (Hwf' _ Hin1) as [[na Hna] _], (Hwf' _ Hin2) as [[nb Hnb] _].
  rewrite Hna in Hi |- *. rewrite Hnb in Hj |- *.
  assert (i < igraph.vcount
                (LocalGraph.graph
                   (LocalGraph.create_from_connections_undirected conns w).1))
    as Hilt by (rewrite <- Hvn; by eapply lookup_lt_Some).
  assert (j < igraph.vcount
                (LocalGraph.graph
                   (LocalGraph.create_from_connections_undirected conns w).1))
    as Hjlt by (rewrite <- Hvn; by eapply lookup_lt_Some).
  assert (i = j ↔ Some na = Some nb) as Hloop.
  { split.
    - intros ->. congruence.
    - intros [= ->]. by eapply NoDup_lookup. }
  exists (i `min` j), (i `max` j). split; [done|].
  destruct (Nat.le_ge_cases i j) as [Hle | Hge].
  - rewrite Nat.min_l, Nat.max_r by done.
    split_and!; [done | done | by left | done].
  - rewrite Nat.min_r, Nat.max_l by done.
    split_and!; [done | done | by right |].
    rewrite <- Hloop. split; intros; by subst.
Qed.

Lemma create_edges_join_names_witness :
  length
    (igraph.es
       (LocalGraph.graph
          (LocalGraph.create_from_connections_undirected
             example_connections example_world).1))
  = length example_connections.
Proof.
  apply (create_edges_join_names example_connections example_world
           example_well_formed).
Defined.

(** On a non-empty list the [label] attribute of the graph is the list of
    the vertex names, whatever ['label'] entries the dictionaries of the
    caller had. *)
Theorem create_label_is_name
    (conns : list (LocalGraph.endpoint * LocalGraph.endpoint))
    (w : LocalGraph.world) :
  well_formed (LocalGraph.heap w) conns →
  conns ≠ [] →
  let g :=
    LocalGraph.graph
      (LocalGraph.create_from_connections_undirected conns w).1 in
  igraph.vs g !! "label" = Some (vertex_names g) ∧
  igraph.vs g !! "name" = Some (vertex_names g).
Proof.
  intros Hwf Hne. cbv zeta.
  destruct (create_keeps_first_occurrences conns w Hwf)
    as (_ & _ & Hnames & _).
  destruct (create_graph conns w Hwf) as (L & _ & Hg & _).
  rewrite Hnames. rewrite Hg in *. clear Hg.
  assert (first_occurrences (LocalGraph.heap w) (endpoints conns) ≠ [])
    as Hfirsts.
  { destruct conns as [|pair conns']; [done|].
    apply well_formed_cons in Hwf as (([na Hna] & _) & _ & _).
    intros Hnil.
    assert (na ∈ (first_occurrences (LocalGraph.heap w)
                    (endpoints (pair :: conns'))).*1) as Hin.
    { apply first_occurrences_names. exists pair.1. split; [by left | done]. }
    rewrite Hnil in Hin. by apply elem_of_nil in Hin. }
  unfold vertex_names in Hnames. unfold graph_of in *.
  destruct (first_occurrences _ _) as [|nb firsts'] eqn:Hf; [done|].
  cbn [igraph.vs] in *. split; [apply lookup_insert_eq|].
  rewrite lookup_insert_ne in Hnames |- * by done.
  destruct (_ !! "name") as [col|]; [by simplify_eq/=|done].
Qed.

Lemma create_label_is_name_witness :
  igraph.vs
    (LocalGraph.graph
       (LocalGraph.create_from_connections_undirected
          example_connections example_world).1) !! "label"
  = Some ["A"; "B"].
Proof.
  destruct (create_label_is_name example_connections example_world
              example_well_formed) as [Hlabel _]; [done|].
  rewrite Hlabel. by vm_compute.
Defined.

Lemma first_occurrences_nonempty h conns :
  well_formed h conns → conns ≠ [] → first_occurrences h (endpoints conns) ≠ [].
Proof.
  intros Hwf Hne. destruct conns as [|pair conns']; [done|].
  apply well_formed_cons in Hwf as (([na Hna] & _) & _ & _).
  intros Hnil.
  assert (na ∈ (first_occurrences h (endpoints (pair :: conns'))).*1) as Hin.
  { apply first_occurrences_names. exists pair.1. split; [by left | done]. }
  rewrite Hnil in Hin. by apply elem_of_nil in Hin.
Qed.

(** The entry of a name is the bag of the first endpoint with that name. *)
Lemma first_occurrences_of_first h eps k ep n :
  eps !! k = Some ep →
  name_of h ep = Some n →
  (∀ k' ep', k' < k → eps !! k' = Some ep' → name_of h ep' ≠ Some n) →
  ∃ i, first_occurrences h eps !! i = Some (n, bag h ep).
Proof.
  intros Hk Hn Hfirst.
  assert (n ∈ (first_occurrences h eps).*1) as Hin.
  { apply first_occurrences_names. exists ep. split; [|done].
    by eapply list_elem_of_lookup_2. }
  apply list_elem_of_fmap in Hin as ([n' b] & -> & Hin).
  apply list_elem_of_lookup in Hin as [i Hi]. exists i. simpl.
  destruct (first_occurrences_first h eps i n' b Hi)
    as (k2 & ep2 & Hk2 & Hn2 & -> & Hfirst2).
  destruct (Nat.lt_trichotomy k k2) as [Hlt | [-> | Hlt]].
  - by destruct (Hfirst2 k ep Hlt Hk).
  - by simplify_eq.
  - by destruct (Hfirst k2 ep2 Hlt Hk2).
Qed.

(** The dictionary of a reference after the marking: the original one with
    the label of the last endpoint that refers to it. *)
Lemma heap_mark_types_last eps w l :
  LocalGraph.heap (mark_types eps w) l
  = match last (List.filter
                  (λ ep, bool_decide (LocalGraph.properties ep = l)) eps) with
    | Some ep => bag (LocalGraph.heap w) ep
    | None => LocalGraph.heap w l
    end.
Proof.
  induction eps as [|ep eps IH] using rev_ind; [done|].
  rewrite mark_types_snoc, List.filter_app. cbn [List.filter].
  case_bool_decide as Hl.
  - rewrite last_snoc. subst l. rewrite heap_set_type_self.
    apply bag_mark_types.
  - rewrite app_nil_r, heap_set_type_other by done. exact IH.
Qed.

(** ** LocalGraph.create_from_connections_undirected: further properties *)

(** The [type] attribute of a vertex is the type label of the first
    endpoint that carries the vertex's name; the labels of later endpoints
    with the same name do not reach the graph. *)
Theorem create_type_is_first_label
    (conns : list (LocalGraph.endpoint * LocalGraph.endpoint))
    (w : LocalGraph.world) :
  well_formed (LocalGraph.heap w) conns →
  conns ≠ [] →
  let h := LocalGraph.heap w in
  let g :=
    LocalGraph.graph
      (LocalGraph.create_from_connections_undirected conns w).1 in
  ∃ col,
    igraph.vs g !! "type" = Some col ∧
    ∀ k ep n,
      endpoints conns !! k = Some ep →
      name_of h ep = Some n →
      (∀ k' ep', k' < k → endpoints conns !! k' = Some ep' →
                 name_of h ep' ≠ Some n) →
      ∃ i, vertex_names g !! i = Some n ∧
           col !! i = Some (LocalGraph.type ep).
Proof.
  intros Hwf Hne. cbv zeta.
  destruct (create_keeps_first_occurrences conns w Hwf)
    as (_ & _ & Hnames & _).
  destruct (create_uniform_attribute conns w "type" Hwf Hne) as (col & Hcol & Hat);
    [done| |].
  { apply Forall_forall. intros [n b] Hin.
    apply list_elem_of_lookup in Hin as [i Hi].
    destruct (first_occurrences_first _ _ _ _ _ Hi) as (k & ep & _ & _ & -> & _).
    exists (LocalGraph.type ep). unfold first_value, bag. simpl.
    by rewrite lookup_insert_eq. }
  exists col. split; [done|]. intros k ep n Hk Hn Hfirst.
  destruct (first_occurrences_of_first _ _ _ _ _ Hk Hn Hfirst) as [i Hi].
  exists i. split.
  - rewrite Hnames, list_lookup_fmap, Hi. done.
  - rewrite (Hat i _ Hi). unfold first_value, bag. simpl.
    by rewrite lookup_insert_eq.
Qed.

Lemma create_type_is_first_label_witness :
  ∃ col,
    igraph.vs
      (LocalGraph.graph
         (LocalGraph.create_from_connections_undirected
            example_connections example_world).1) !! "type" = Some col.
Proof.
  destruct (create_type_is_first_label example_connections example_world
              example_well_formed) as (col & Hcol & _); [done|].
  by exists col.
Defined.

(** On input in the documented format the call succeeds exactly when the
    list of connections is not empty.  On the empty list [self.graph]
    becomes the empty graph, which has no [name] attribute to copy into
    [label], and the call ends with the KeyError of the graph library. *)
Theorem create_succeeds_iff_nonempty
    (conns : list (LocalGraph.endpoint * LocalGraph.endpoint))
    (w : LocalGraph.world) :
  well_formed (LocalGraph.heap w) conns →
  ((LocalGraph.create_from_connections_undirected conns w).2 = inr tt
   ↔ conns ≠ []) ∧
  (conns = [] →
   LocalGraph.create_from_connections_undirected conns w
   = (LocalGraph.set_graph igraph.Graph_empty w,
      inl (KeyError "Attribute does not exist"))).
Proof.
  intros Hwf. split.
  - destruct (create_graph conns w Hwf) as (L & _ & _ & _ & ->).
    destruct conns as [|pair conns']; [done|].
    pose proof (first_occurrences_nonempty _ _ Hwf) as Hne.
    destruct (first_occurrences _ _); [by destruct Hne|done].
  - intros ->. reflexivity.
Qed.

Lemma create_succeeds_iff_nonempty_witness :
  (LocalGraph.create_from_connections_undirected
     example_connections example_world).2 = inr tt.
Proof.
  by apply (create_succeeds_iff_nonempty example_connections example_world
              example_well_formed).
Defined.

(** The graph that is built depends on the input only through the names
    of the endpoints of each connection and the dictionaries of the first
    endpoint of each name: the graph held before the call, the dictionaries
    of later endpoints of a name and any dictionary that is not referred to
    leave no trace. *)
Theorem create_graph_from_first_occurrences
    (conns conns' : list (LocalGraph.endpoint * LocalGraph.endpoint))
    (w w' : LocalGraph.world) :
  well_formed (LocalGraph.heap w) conns →
  well_formed (LocalGraph.heap w') conns' →
  pair_names (LocalGraph.heap w) conns
  = pair_names (LocalGraph.heap w') conns' →
  first_occurrences (LocalGraph.heap w) (endpoints conns)
  = first_occurrences (LocalGraph.heap w') (endpoints conns') →
  LocalGraph.graph (LocalGraph.create_from_connections_undirected conns w).1
  = LocalGraph.graph
      (LocalGraph.create_from_connections_undirected conns' w').1.
Proof.
  intros Hwf Hwf' Hnames Hfirsts.
  destruct (create_graph conns w Hwf) as (L & Hinv & -> & _).
  destruct (create_graph conns' w' Hwf') as (L' & Hinv' & -> & _).
  rewrite Hfirsts. f_equal. by eapply loop_inv_unique.
Qed.

Lemma create_graph_from_first_occurrences_witness :
  LocalGraph.graph
    (LocalGraph.create_from_connections_undirected
       example_connections example_world).1
  = LocalGraph.graph
      (LocalGraph.create_from_connections_undirected
         example_connections example_world_later).1.
Proof.
  apply (create_graph_from_first_occurrences
           example_connections example_connections
           example_world example_world_later
           example_well_formed example_later_well_formed).
  - by vm_compute.
  - by vm_compute.
Defined.

(** Building twice from the same list is building once: the second call
    ends as the first did and leaves the same graph and the same
    dictionaries. *)
Theorem create_twice
    (conns : list (LocalGraph.endpoint * LocalGraph.endpoint))
    (w : LocalGraph.world) :
  well_formed (LocalGraph.heap w) conns →
  let once := LocalGraph.create_from_connections_undirected conns w in
  let twice := LocalGraph.create_from_connections_undirected conns once.1 in
  twice.2 = once.2 ∧
  LocalGraph.graph twice.1 = LocalGraph.graph once.1 ∧
  ∀ l, LocalGraph.heap twice.1 l = LocalGraph.heap once.1 l.
Proof.
  intros Hwf. cbv zeta.
  destruct (create_graph conns w Hwf) as (L & Hinv & Hg & Hh & Hr).
  set (w1 := (LocalGraph.create_from_connections_undirected conns w).1) in *.
  assert (∀ ep, bag (LocalGraph.heap w) ep = bag (LocalGraph.heap w1) ep)
    as Hbags.
  { intros ep. by rewrite Hh, bag_mark_types. }
  pose proof (well_formed_ext _ _ _ Hbags Hwf) as Hwf1.
  pose proof (first_occurrences_ext _ _ (endpoints conns) Hbags) as Hfirsts.
  destruct (create_graph conns w1 Hwf1) as (L1 & Hinv1 & Hg1 & Hh1 & Hr1).
  split_and!.
  - by rewrite Hr1, Hr, Hfirsts.
  - rewrite Hg1, Hg, <- Hfirsts. f_equal.
    eapply loop_inv_unique; [exact Hinv1 | exact Hinv | done |].
    unfold pair_names. apply list_fmap_ext. intros _ pair _.
    unfold name_of. by rewrite !Hbags.
  - intros l. rewrite Hh1, Hh, !heap_mark_types_last.
    destruct (last _) as [ep|] eqn:Hlast; [by rewrite <- Hbags|].
    by rewrite Hh, heap_mark_types_last, Hlast.
Qed.

Lemma create_twice_witness :
  LocalGraph.graph
    (LocalGraph.create_from_connections_undirected example_connections
       (LocalGraph.create_from_connections_undirected
          example_connections example_world).1).1
  = LocalGraph.graph
      (LocalGraph.create_from_connections_undirected
         example_connections example_world).1.
Proof.
  apply (create_twice example_connections example_world example_well_formed).
Defined.

(** ** LocalGraph.find_shortest_paths after a build *)

(** After a successful build, a query returns a list of paths exactly when
    both names are names of endpoints of the connections; it raises
    otherwise.  The query leaves the graph and the dictionaries as they
    are. *)
Theorem find_after_create
    (conns : list (LocalGraph.endpoint * LocalGraph.endpoint))
    (w : LocalGraph.world) (name1 name2 : string) :
  well_formed (LocalGraph.heap w) conns →
  let h := LocalGraph.heap w in
  let built := (LocalGraph.create_from_connections_undirected conns w).1 in
  let is_endpoint_name n := ∃ ep, ep ∈ endpoints conns ∧ name_of h ep = Some n in
  (LocalGraph.find_shortest_paths name1 name2 built).1 = built ∧
  ((∃ paths,
      (LocalGraph.find_shortest_paths name1 name2 built).2 = inr paths)
   ↔ is_endpoint_name name1 ∧ is_endpoint_name name2).
Proof.
  intros Hwf. cbv zeta. split; [done|].
  destruct (create_keeps_first_occurrences conns w Hwf)
    as (_ & _ & Hnames & _).
  rewrite <- !first_occurrences_names, <- Hnames.
  unfold LocalGraph.find_shortest_paths, igraph.get_all_shortest_paths.
  cbn [snd].
  set (g := LocalGraph.graph
              (LocalGraph.create_from_connections_undirected conns w).1) in *.
  destruct (decide (name1 ∈ vertex_names g)) as [H1|H1].
  - destruct (vertex_id_present g name1 H1) as [i ->].
    destruct (decide (name2 ∈ vertex_names g)) as [H2|H2].
    + destruct (vertex_id_present g name2 H2) as [j ->]. split; eauto.
    + rewrite (vertex_id_absent g name2 H2). split.
      * by intros [? ?].
      * by intros [_ ?].
  - rewrite (vertex_id_absent g name1 H1). split.
    + by intros [? ?].
    + by intros [? _].
Qed.

Lemma find_after_create_witness :
  (LocalGraph.find_shortest_paths "A" "B"
     (LocalGraph.create_from_connections_undirected
        example_connections example_world).1).1
  = (LocalGraph.create_from_connections_undirected
       example_connections example_world).1.
Proof.
  apply (find_after_create example_connections example_world "A" "B"
           example_well_formed).
Defined.

(** ** LocalGraph.create_from_connections_undirected: an endpoint without a name *)

Lemma endpoint_body_no_name h ep acc w :
  (∀ ep', bag (LocalGraph.heap w) ep' = bag h ep') →
  name_of h ep = None →
  LocalGraph.endpoint_body ep acc w
  = (LocalGraph.set_type ep w, inl (name_error h ep)).
Proof.
  intros Hbags Hn. unfold LocalGraph.endpoint_body. destruct acc as [L idx].
  erewrite bind_ok by reflexivity. erewrite bind_ok by reflexivity.
  rewrite heap_set_type_self, Hbags.
  unfold name_of, first_value in Hn. unfold name_error.
  assert (bag h ep !! "name" = h (LocalGraph.properties ep) !! "name") as Hraw.
  { unfold bag. by apply lookup_insert_ne. }
  rewrite <- Hraw. by destruct (bag h ep !! "name") as [[|]|].
Qed.

Lemma pair_body_raise_first pair L w s e :
  LocalGraph.endpoint_body pair.1 (L, []) w = (s, inl e) →
  LocalGraph.pair_body pair L w = (s, inl e).
Proof.
  intros Hrun. unfold LocalGraph.pair_body.
  erewrite bind_raise; [reflexivity|].
  cbn [for_each]. by erewrite bind_raise.
Qed.

Lemma pair_body_raise_second pair L w s1 acc s2 e :
  LocalGraph.endpoint_body pair.1 (L, []) w = (s1, inr acc) →
  LocalGraph.endpoint_body pair.2 acc s1 = (s2, inl e) →
  LocalGraph.pair_body pair L w = (s2, inl e).
Proof.
  intros Hrun1 Hrun2. unfold LocalGraph.pair_body.
  erewrite bind_raise; [reflexivity|].
  cbn [for_each]. erewrite bind_ok by exact Hrun1. by erewrite bind_raise.
Qed.

Lemma loop_name_error h conns : ∀ firsts L w k ep,
  (∀ ep', bag (LocalGraph.heap w) ep' = bag h ep') →
  represents firsts L →
  endpoints conns !! k = Some ep →
  Forall (λ ep',
    is_Some (name_of h ep') ∧ map_Forall (λ _ col, col ≠ []) (bag h ep'))
    (take k (endpoints conns)) →
  name_of h ep = None →
  for_each conns LocalGraph.pair_body L w
  = (mark_types (take (S k) (endpoints conns)) w, inl (name_error h ep)).
Proof.
  induction conns as [|pair conns IH]; intros firsts L w k ep Hbags Hrep Hk Hwf Hn;
    [done|].
  change (endpoints (pair :: conns))
    with (pair.1 :: pair.2 :: endpoints conns) in *.
  destruct k as [|[|k]].
  - injection Hk as <-. cbn [for_each].
    erewrite bind_raise; [reflexivity|].
    apply pair_body_raise_first. by apply (endpoint_body_no_name h).
  - injection Hk as <-. cbn [take] in Hwf.
    apply Forall_cons in Hwf as [[[na Hna] Halla] _].
    destruct (endpoint_body_spec h pair.1 firsts L [] w na Hbags Hrep Hna Halla)
      as (L1 & i & Hrun1 & _).
    cbn [for_each]. erewrite bind_raise; [reflexivity|].
    eapply pair_body_raise_second; [exact Hrun1|].
    apply (endpoint_body_no_name h); [|done].
    intros ep'. by rewrite bag_set_type.
  - cbn [take] in Hwf.
    apply Forall_cons in Hwf as [[[na Hna] Halla] Hwf].
    apply Forall_cons in Hwf as [[[nb Hnb] Hallb] Hwf].
    destruct (pair_body_spec h pair firsts L w na nb Hbags Hrep Hna Halla Hnb Hallb)
      as (L1 & i & j & Hrun & Hrep1 & _).
    cbn [for_each]. erewrite bind_ok by exact Hrun.
    erewrite (IH _ L1 _ k ep); [reflexivity| |exact Hrep1|exact Hk|exact Hwf|done].
    intros ep'. by rewrite !bag_set_type.
Qed.

(** When an endpoint has no first name - no ['name'] key, or an empty list
    under it - and the endpoints before it are in the documented format, the
    call raises at that endpoint: KeyError for the missing key, IndexError
    for the empty list.  [self.graph] is what it was, and the dictionaries of
    the endpoints up to and including that one have been given their ['type']
    entry; the dictionaries of the later endpoints are not marked. *)
Theorem create_stops_at_nameless
    (conns : list (LocalGraph.endpoint * LocalGraph.endpoint))
    (w : LocalGraph.world) (k : nat) (ep : LocalGraph.endpoint) :
  let h := LocalGraph.heap w in
  endpoints conns !! k = Some ep →
  Forall (λ ep',
    is_Some (name_of h ep') ∧ map_Forall (λ _ col, col ≠ []) (bag h ep'))
    (take k (endpoints conns)) →
  name_of h ep = None →
  LocalGraph.create_from_connections_undirected conns w
  = (mark_types (take (S k) (endpoints conns)) w, inl (name_error h ep)) ∧
  LocalGraph.graph (LocalGraph.create_from_connections_undirected conns w).1
  = LocalGraph.graph w.
Proof.
  cbv zeta. intros Hk Hwf Hn.
  assert (LocalGraph.create_from_connections_undirected conns w
          = (mark_types (take (S k) (endpoints conns)) w,
             inl (name_error (LocalGraph.heap w) ep))) as Hrun.
  { unfold LocalGraph.create_from_connections_undirected.
    erewrite bind_raise; [reflexivity|].
    eapply loop_name_error; [done | | exact Hk | exact Hwf | exact Hn].
    destruct (loop_inv_init (LocalGraph.heap w)) as [Hrep _]. exact Hrep. }
  split; [done|]. rewrite Hrun. apply graph_mark_types.
Qed.

Lemma create_stops_at_nameless_witness :
  (LocalGraph.create_from_connections_undirected
     nameless_connections example_world).2
  = inl (KeyError "name").
Proof.
  destruct (create_stops_at_nameless nameless_connections example_world 5
              {| LocalGraph.properties := 7; LocalGraph.type := "Z" |})
    as [Hrun _].
  - reflexivity.
  - repeat (apply Forall_cons; split; [split|]); try apply Forall_nil.
    all: try (eexists; vm_compute; reflexivity).
    all: apply (bool_decide_unpack _); vm_compute; exact I.
  - by vm_compute.
  - rewrite Hrun. reflexivity.
Defined.
